(** * Giveaway bot: entry ledger, registry and weighted lottery

    A shallow embedding of the giveaway bot's core (the bot source with the
    [createGiveaway] helper) and the properties of its specification.

    Modelling conventions.
    - A JavaScript [Map] is an association list in insertion order
      ([JsMap]): [set] overwrites in place or appends, as [Map.set] does,
      and [keys] lists the keys in insertion order.
    - Wei amounts (JS [bigint]) are [Z]; entry counts (JS [number], whole
      numbers) are [Z] and dates are [Z] milliseconds, exact as long as they
      stay below [2^53].  USD amounts and the ETH price (JS [number]) are
      rationals read as doubles: the division rounds to the nearest double,
      and [Number] on a [bigint] does.
    - A handler that mutates the registry returns the new state; the
      message it sends is returned as a reply value; a thrown exception is
      [None].
    - The giveaway object held by a handler is the object stored in the
      registry, so a field write is a write to the registry entry. *)

From Stdlib Require Import List ZArith QArith Qabs Qround Qpower Bool Lia Lqa.
From Stdlib Require Import String Ascii.
From Stdlib Require Import DecimalString.
From Stdlib Require Import Sorted Permutation.
Import ListNotations.
Open Scope Z_scope.

(** ** JavaScript [Map] with string keys *)

Module JsMap.

Section Ops.
Context {V : Type}.

Definition t := list (string * V).

Definition empty : t := [].

Fixpoint get (m : t) (k : string) : option V :=
  match m with
  | [] => None
  | (k', v) :: m' => if String.eqb k' k then Some v else get m' k
  end.

Fixpoint set (m : t) (k : string) (v : V) : t :=
  match m with
  | [] => [(k, v)]
  | (k', v') :: m' =>
      if String.eqb k' k then (k', v) :: m' else (k', v') :: set m' k v
  end.

Definition delete (m : t) (k : string) : t :=
  filter (fun kv => negb (String.eqb (fst kv) k)) m.

Definition keys (m : t) : list string := map fst m.

End Ops.

Arguments t : clear implicits.

End JsMap.

(** ** The giveaway record and the process-wide state *)

Record Giveaway := mkGiveaway {
  channelId : string;
  prize : string;
  startTime : Z;
  endTime : Z;
  tipEntryFee : Z;
  tipEntryCap : Z;
  tipEntries : JsMap.t Z;
  reactionEntries : JsMap.t Z;
  isActive : bool;
  announcementMessageId : option string
}.

Record BotState := mkState {
  activeGiveaways : JsMap.t Giveaway;
  ethPriceUsd : Q
}.

(** Field writes on a giveaway object. *)

Definition withTipEntries (g : Giveaway) (m : JsMap.t Z) : Giveaway :=
  mkGiveaway (channelId g) (prize g) (startTime g) (endTime g) (tipEntryFee g)
    (tipEntryCap g) m (reactionEntries g) (isActive g) (announcementMessageId g).

Definition withReactionEntries (g : Giveaway) (m : JsMap.t Z) : Giveaway :=
  mkGiveaway (channelId g) (prize g) (startTime g) (endTime g) (tipEntryFee g)
    (tipEntryCap g) (tipEntries g) m (isActive g) (announcementMessageId g).

Definition withIsActive (g : Giveaway) (b : bool) : Giveaway :=
  mkGiveaway (channelId g) (prize g) (startTime g) (endTime g) (tipEntryFee g)
    (tipEntryCap g) (tipEntries g) (reactionEntries g) b (announcementMessageId g).

Definition withTipEntryCap (g : Giveaway) (cap : Z) : Giveaway :=
  mkGiveaway (channelId g) (prize g) (startTime g) (endTime g) (tipEntryFee g)
    cap (tipEntries g) (reactionEntries g) (isActive g) (announcementMessageId g).

Definition withTipEntryFee (g : Giveaway) (fee : Z) : Giveaway :=
  mkGiveaway (channelId g) (prize g) (startTime g) (endTime g) fee
    (tipEntryCap g) (tipEntries g) (reactionEntries g) (isActive g)
    (announcementMessageId g).

Definition withAnnouncement (g : Giveaway) (eventId : string) : Giveaway :=
  mkGiveaway (channelId g) (prize g) (startTime g) (endTime g) (tipEntryFee g)
    (tipEntryCap g) (tipEntries g) (reactionEntries g) (isActive g) (Some eventId).

(** The write reaches the registry entry the object is stored under. *)
Definition putGiveaway (st : BotState) (ch : string) (g : Giveaway) : BotState :=
  mkState (JsMap.set (activeGiveaways st) ch g) (ethPriceUsd st).

Definition deleteGiveaway (st : BotState) (ch : string) : BotState :=
  mkState (JsMap.delete (activeGiveaways st) ch) (ethPriceUsd st).

(** [activeGiveaways.get(channelId) || null] *)
Definition getGiveaway (st : BotState) (ch : string) : option Giveaway :=
  JsMap.get (activeGiveaways st) ch.

(** [m.get(userId) || 0] *)
Definition getOr0 (m : JsMap.t Z) (userId : string) : Z :=
  match JsMap.get m userId with
  | Some n => n
  | None => 0
  end.

(** ** Entry ledger *)

Definition addReactionEntry (st : BotState) (ch userId : string) (count : Z)
  : BotState :=
  match getGiveaway st ch with
  | None => st
  | Some giveaway =>
      if negb (isActive giveaway) then st
      else
        let currentEntries := getOr0 (reactionEntries giveaway) userId in
        putGiveaway st ch
          (withReactionEntries giveaway
             (JsMap.set (reactionEntries giveaway) userId (currentEntries + count)))
  end.

Definition addTipEntry (st : BotState) (ch userId : string) (count : Z)
  : BotState * Z :=
  match getGiveaway st ch with
  | None => (st, 0)
  | Some giveaway =>
      if negb (isActive giveaway) then (st, 0)
      else
        let currentTipEntries := getOr0 (tipEntries giveaway) userId in
        let remainingCap := tipEntryCap giveaway - currentTipEntries in
        if remainingCap <=? 0 then (st, 0)
        else
          let entriesToAdd := Z.min count remainingCap in
          (putGiveaway st ch
             (withTipEntries giveaway
                (JsMap.set (tipEntries giveaway) userId
                   (currentTipEntries + entriesToAdd))),
           entriesToAdd)
  end.

Definition getTotalEntries (giveaway : Giveaway) (userId : string) : Z :=
  getOr0 (reactionEntries giveaway) userId + getOr0 (tipEntries giveaway) userId.

(** ** Numbers

    A JavaScript [number] is an IEEE double.  A finite double is modelled by
    its value, a rational; an operation on numbers computes the exact result
    and rounds it to the nearest double, ties going to the even
    significand. *)

(** [floor(log2 x)] for a positive rational. *)
Definition ilog2 (x : Q) : Z :=
  let k := Z.log2 (Qnum x) - Z.log2 (Z.pos (Qden x)) in
  if Qle_bool (2 ^ k) x then k else k - 1.

(** The nearest integer, a tie going to the even one. *)
Definition roundHalfEven (x : Q) : Z :=
  let below := Qfloor x in
  match (x - inject_Z below ?= 1 # 2)%Q with
  | Lt => below
  | Gt => below + 1
  | Eq => if Z.even below then below else below + 1
  end.

(** The double nearest to a positive rational: a significand of 53 bits,
    the unit in the last place no smaller than [2^-1074] (subnormal
    numbers, underflow to 0); [None] is [Infinity]. *)
Definition nearestDouble (a : Q) : option Q :=
  let ulp := (2 ^ Z.max (ilog2 a - 52) (-1074))%Q in
  let d := (inject_Z (roundHalfEven (a / ulp)) * ulp)%Q in
  if Qle_bool (2 ^ 1024) d then None else Some d.

(** A rational read as a number: the double nearest to it, itself when it is
    a double; [None] is [Infinity] or [-Infinity].  An amount or a price is
    the value of [parseFloat] on the text of an argument, which is the number
    nearest to what the text says. *)
Definition number (x : Q) : option Q :=
  if Qeq_bool x 0 then Some 0%Q
  else
    option_map (fun d => if Qle_bool 0 x then d else (- d)%Q)
      (nearestDouble (Qabs x)).

(** [x <= 0] on a number ([-Infinity] is, [Infinity] is not). *)
Definition notPositive (x : Q) : bool :=
  match number x with
  | Some d => Qle_bool d 0
  | None => Qle_bool x 0
  end.

(** Half a unit in the last place of a double near [a]: [2^-53] of [a], and
    [2^-1075] where doubles are subnormal. *)
Definition halfUlp (a : Q) : Q := (a * 2 ^ (-53) + 2 ^ (-1075))%Q.

(** [a / b] on numbers; [None] when the result is not finite: a division by
    0 gives [Infinity] or [NaN], an infinite dividend [Infinity] or [NaN];
    a finite dividend over an infinite divisor gives 0. *)
Definition quotient (a b : Q) : option Q :=
  match number a, number b with
  | Some x, Some y => if Qeq_bool y 0 then None else number (x / y)
  | Some _, None => Some 0%Q
  | None, _ => None
  end.

(** *** [Number.prototype.toString]

    The text of a finite number other than 0 is made of the digits [s]
    ([k] of them, as few as possible) and the decimal exponent [n] for
    which [s * 10^(n - k)] is read back as the same number, the closest to
    it when several do (an even [s] on a tie).  It is written as a plain
    decimal numeral when [-6 < n <= 21] and in exponent notation
    otherwise. *)

(** [floor(log10 x)] for a positive rational, from an estimate that is off
    by less than 2. *)
Definition ilog10 (x : Q) : Z :=
  let guess := (Z.log2 (Qnum x) - Z.log2 (Z.pos (Qden x))) * 30103 / 100000 in
  match find (fun k => Qle_bool (10 ^ k) x)
          [guess + 2; guess + 1; guess; guess - 1] with
  | Some k => k
  | None => guess - 2
  end.

Definition decimalOf (s n k : Z) : Q := (inject_Z s * 10 ^ (n - k))%Q.

Definition roundTrips (d : Q) (s n k : Z) : bool :=
  match nearestDouble (decimalOf s n k) with
  | Some d' => Qeq_bool d' d
  | None => false
  end.

(** The numerals of [k] digits that are read back as [d]: the two next to
    [d], for the decimal exponent of [d] and the one above it. *)
Definition candidates (d : Q) (n0 k : Z) : list (Z * Z) :=
  filter (fun c => (10 ^ (k - 1) <=? fst c) && (fst c <? 10 ^ k)
                   && roundTrips d (fst c) (snd c) k)
    (flat_map (fun n => let below := Qfloor (d / 10 ^ (n - k)) in
                        [(below, n); (below + 1, n)])
       [n0; n0 + 1]).

Definition closer (d : Q) (k : Z) (c1 c2 : Z * Z) : Z * Z :=
  let distance c := Qabs (decimalOf (fst c) (snd c) k - d) in
  match (distance c1 ?= distance c2)%Q with
  | Lt => c1
  | Gt => c2
  | Eq => if Z.even (fst c1) then c1 else c2
  end.

Fixpoint shortestFrom (fuel : nat) (d : Q) (n0 k : Z) : option (Z * Z * Z) :=
  match fuel with
  | O => None
  | S fuel' =>
      match candidates d n0 k with
      | c :: cs =>
          let best := fold_left (closer d k) cs c in
          Some (fst best, snd best, k)
      | [] => shortestFrom fuel' d n0 (k + 1)
      end
  end.

(** The digits, the decimal exponent and the number of digits of a positive
    double.  Seventeen digits tell any two doubles apart, so the search ends
    with a numeral. *)
Definition shortestDecimal (d : Q) : option (Z * Z * Z) :=
  shortestFrom 17 d (ilog10 d + 1) 1.

(** The text of a number: a plain decimal numeral, given by its value, or a
    text that is none (exponent notation; [Infinity] and [NaN] for the
    numbers that are not finite). *)
Inductive NumberText :=
| DecimalText (value : Q)
| OtherText.

Definition negateText (t : NumberText) : NumberText :=
  match t with
  | DecimalText value => DecimalText (- value)
  | OtherText => OtherText
  end.

Definition toString (x : Q) : NumberText :=
  if Qeq_bool x 0 then DecimalText 0
  else
    match shortestDecimal (Qabs x) with
    | Some (s, n, k) =>
        if (-6 <? n) && (n <=? 21)
        then DecimalText (if Qle_bool 0 x then decimalOf s n k
                          else - decimalOf s n k)
        else OtherText
    | None => OtherText
    end.

(** ** Currency converter *)

(** Modelled from the spec: [parseEther] belongs to the [viem] package, not to
    the repository.  The spec gives it 18-decimal fixed-point semantics: the
    amount in ether as a count of wei.  The digits past the eighteenth are
    rounded to the nearest wei, on the magnitude.  It reads a signed decimal
    numeral and throws on any other text. *)
Definition parseEther (ethAmount : Q) : Z :=
  let scaled := (Qabs ethAmount * inject_Z (10 ^ 18) + (1 # 2))%Q in
  Z.sgn (Qnum ethAmount) * Qfloor scaled.

(** [parseEther((usdAmount / ethPriceUsd).toString())]: the quotient of two
    numbers, its text, and the text read as ether.  [parseEther] throws when
    the quotient is not finite and when its text is in exponent notation. *)
Definition usdToWei (st : BotState) (usdAmount : Q) : option Z :=
  match quotient usdAmount (ethPriceUsd st) with
  | None => None
  | Some ethAmount =>
      match toString ethAmount with
      | DecimalText text => Some (parseEther text)
      | OtherText => None
      end
  end.

(** ** Duration strings *)

Definition isDigit (c : ascii) : bool :=
  ((48 <=? nat_of_ascii c) && (nat_of_ascii c <=? 57))%nat.

(** [[hdm]] under the [i] flag. *)
Definition isUnit (c : ascii) : bool :=
  existsb (Ascii.eqb c) ["h"; "d"; "m"; "H"; "D"; "M"]%char.

(** The longest prefix of digits and what follows it. *)
Fixpoint spanDigits (s : string) : string * string :=
  match s with
  | EmptyString => (EmptyString, EmptyString)
  | String c s' =>
      if isDigit c then
        let (ds, rest) := spanDigits s' in (String c ds, rest)
      else (EmptyString, s)
  end.

(** [durationStr.match(/^(\d+)([hdm])$/i)]: the two captured groups.  The
    unit is no digit, so the first group is the whole run of leading
    digits. *)
Definition matchDuration (durationStr : string) : option (string * ascii) :=
  match spanDigits durationStr with
  | (EmptyString, _) => None
  | (ds, String u EmptyString) => if isUnit u then Some (ds, u) else None
  | (_, _) => None
  end.

(** [parseInt] on a string of decimal digits. *)
Definition parseInt (ds : string) : Z :=
  fold_left (fun acc c => acc * 10 + (Z.of_nat (nat_of_ascii c) - 48))
    (list_ascii_of_string ds) 0.

(** [toLowerCase] on one ASCII character. *)
Definition toLowerCase (c : ascii) : ascii :=
  let n := nat_of_ascii c in
  if ((65 <=? n) && (n <=? 90))%nat then ascii_of_nat (n + 32) else c.

Definition msOfDuration (durationValue : Z) (durationUnit : ascii) : Z :=
  if Ascii.eqb durationUnit "m" then durationValue * 60 * 1000
  else if Ascii.eqb durationUnit "h" then durationValue * 60 * 60 * 1000
  else if Ascii.eqb durationUnit "d" then durationValue * 24 * 60 * 60 * 1000
  else 0.

(** ** Giveaway registry: creation *)

Inductive CreateResult :=
| CreateSuccess
| CreateInvalidDuration
| CreateAlreadyActive.

(** [createGiveaway]; [now] is the value of [new Date()] and [eventId] the
    id of the announcement returned by [handler.sendMessage]; the state
    returned is the registry when the call returns, the announcement id
    written to the stored record.  Times are time values in milliseconds.
    [parseInt], the products and the sum are exact as long as [now] is not
    negative and the end time is within the range of [Date]: every value is
    then an integer below [2^53].  When the sum leaves that range the code
    stores an Invalid Date, and every comparison [new Date() > endTime] with
    it is false; the model keeps the sum, which is after every instant
    [new Date()] can give. *)
Definition createGiveaway (st : BotState) (now : Z) (eventId : string)
    (ch prizeText durationStr : string) (tipFeeUsd : Q) (cap : Z)
  : option (BotState * CreateResult) :=
  match matchDuration durationStr with
  | None => Some (st, CreateInvalidDuration)
  | Some (digits, unitChar) =>
      let durationValue := parseInt digits in
      let durationUnit := toLowerCase unitChar in
      let msDuration := msOfDuration durationValue durationUnit in
      let blocked :=
        match getGiveaway st ch with
        | Some existing => isActive existing
        | None => false
        end in
      if blocked then Some (st, CreateAlreadyActive)
      else
        match usdToWei st tipFeeUsd with
        | None => None
        | Some fee =>
            let start := now in
            let finish := start + msDuration in
            let giveaway :=
              mkGiveaway ch prizeText start finish fee cap
                JsMap.empty JsMap.empty true None in
            Some (putGiveaway st ch (withAnnouncement giveaway eventId),
                  CreateSuccess)
        end
  end.

(** ** Lottery engine *)

(** [Set.add], [new Set(iterable)]: insertion order, first occurrence kept. *)
Definition setAdd (s : list string) (x : string) : list string :=
  if existsb (String.eqb x) s then s else s ++ [x].

Definition newSet (l : list string) : list string := fold_left setAdd l [].

Definition allUsers (giveaway : Giveaway) : list string :=
  newSet (JsMap.keys (reactionEntries giveaway) ++ JsMap.keys (tipEntries giveaway)).

(** The weighted array: the inner loop pushes [userId] once for each
    [i = 0 .. totalEntries - 1], hence never when [totalEntries <= 0]. *)
Definition weightedEntries (giveaway : Giveaway) : list string :=
  flat_map (fun userId => repeat userId (Z.to_nat (getTotalEntries giveaway userId)))
    (allUsers giveaway).

(** [Math.random()] gives a number in [[0, 1)]: [rnd] read as a number, the
    largest double below 1 standing for a rational nearer to 1 than to it. *)
Definition largestBelowOne : Q := (1 - 2 ^ (-53))%Q.

Definition randomNumber (rnd : Q) : Q :=
  match number rnd with
  | Some d => if Qle_bool 1 d then largestBelowOne else d
  | None => largestBelowOne
  end.

(** [Math.floor(Math.random() * length)]: the product of two numbers.  An
    array has fewer than [2^32] elements, so the product is finite; the
    exact product stands for it in a list too long to be an array. *)
Definition randomIndex (rnd : Q) (len : nat) : Z :=
  let product := (randomNumber rnd * inject_Z (Z.of_nat len))%Q in
  match number product with
  | Some p => Qfloor p
  | None => Qfloor product
  end.

(** [arr[i]]: [undefined] out of range. *)
Definition arrayAt (arr : list string) (i : Z) : option string :=
  if i <? 0 then None else nth_error arr (Z.to_nat i).

Definition selectWinner (giveaway : Giveaway) (rnd : Q) : option string :=
  match allUsers giveaway with
  | [] => None
  | _ :: _ =>
      match weightedEntries giveaway with
      | [] => None
      | _ :: _ =>
          arrayAt (weightedEntries giveaway)
            (randomIndex rnd (List.length (weightedEntries giveaway)))
      end
  end.

(** ** Admin commands: end, set-fee, set-cap, set-eth-price

    Each function is the branch of the [giveaway] slash command of that name,
    entered once [hasAdminPermission] has answered yes. *)

Inductive EndReply :=
| EndNoActiveGiveaway
| EndNoEntries
| EndWinner (winner : string) (winnerEntries totalEntries : Z) (participants : nat).

(** [!winner] holds for [null] and for the empty string. *)
Definition giveawayEnd (st : BotState) (ch : string) (rnd : Q)
  : BotState * EndReply :=
  match getGiveaway st ch with
  | None => (st, EndNoActiveGiveaway)
  | Some giveaway =>
      if negb (isActive giveaway) then (st, EndNoActiveGiveaway)
      else
        let ended := withIsActive giveaway false in
        let st' := putGiveaway st ch ended in
        match selectWinner ended rnd with
        | None => (st', EndNoEntries)
        | Some winner =>
            if String.eqb winner EmptyString then (st', EndNoEntries)
            else
              let totalEntries :=
                fold_left (fun sum userId => sum + getTotalEntries ended userId)
                  (allUsers ended) 0 in
              let winnerEntries := getTotalEntries ended winner in
              (deleteGiveaway st' ch,
               EndWinner winner winnerEntries totalEntries
                 (List.length (allUsers ended)))
        end
  end.

(** A numeric command argument: absent, or the result of [parseInt] /
    [parseFloat] on it, [NaN] or the number its text says. *)
Inductive NumArg (A : Type) :=
| ArgMissing
| ArgNaN
| ArgNum (value : A).

Arguments ArgMissing {A}.
Arguments ArgNaN {A}.
Arguments ArgNum {A} value.

Inductive SetReply :=
| SetUsage
| SetInvalid
| SetNoActiveGiveaway
| SetUpdated.

Definition giveawaySetFee (st : BotState) (ch : string) (feeArg : NumArg Q)
  : option (BotState * SetReply) :=
  match feeArg with
  | ArgMissing => Some (st, SetUsage)
  | ArgNaN => Some (st, SetInvalid)
  | ArgNum feeUsd =>
      if notPositive feeUsd then Some (st, SetInvalid)
      else
        match getGiveaway st ch with
        | None => Some (st, SetNoActiveGiveaway)
        | Some giveaway =>
            if negb (isActive giveaway) then Some (st, SetNoActiveGiveaway)
            else
              match usdToWei st feeUsd with
              | None => None
              | Some fee =>
                  Some (putGiveaway st ch (withTipEntryFee giveaway fee), SetUpdated)
              end
        end
  end.

Definition giveawaySetCap (st : BotState) (ch : string) (capArg : NumArg Z)
  : BotState * SetReply :=
  match capArg with
  | ArgMissing => (st, SetUsage)
  | ArgNaN => (st, SetInvalid)
  | ArgNum cap =>
      if cap <=? 0 then (st, SetInvalid)
      else
        match getGiveaway st ch with
        | None => (st, SetNoActiveGiveaway)
        | Some giveaway =>
            if negb (isActive giveaway) then (st, SetNoActiveGiveaway)
            else (putGiveaway st ch (withTipEntryCap giveaway cap), SetUpdated)
        end
  end.

Definition giveawaySetEthPrice (st : BotState) (priceArg : NumArg Q)
  : BotState * SetReply :=
  match priceArg with
  | ArgMissing => (st, SetUsage)
  | ArgNaN => (st, SetInvalid)
  | ArgNum price =>
      if notPositive price then (st, SetInvalid)
      else (mkState (activeGiveaways st) price, SetUpdated)
  end.

(** ** Event handlers: reactions, tips, the expiry sweep *)

Record ReactionEvent := mkReaction {
  re_reaction : string;
  re_channelId : string;
  re_messageId : string;
  re_userId : string
}.

Record TipEvent := mkTip {
  te_channelId : string;
  te_receiverAddress : string;
  te_senderAddress : string;
  te_amount : Z
}.

(** The wrapped-present emoji, U+1F381, in UTF-8. *)
Definition giftEmoji : string :=
  String (ascii_of_nat 240) (String (ascii_of_nat 159)
    (String (ascii_of_nat 142) (String (ascii_of_nat 129) EmptyString))).

Definition isAnnouncement (giveaway : Giveaway) (messageId : string) : bool :=
  match announcementMessageId giveaway with
  | Some a => String.eqb messageId a
  | None => false
  end.

Definition onReaction (st : BotState) (now : Z) (event : ReactionEvent) : BotState :=
  let ch := re_channelId event in
  if negb (String.eqb (re_reaction event) giftEmoji) then st
  else
    match getGiveaway st ch with
    | None => st
    | Some giveaway =>
        if negb (isActive giveaway) then st
        else if negb (isAnnouncement giveaway (re_messageId event)) then st
        else if endTime giveaway <? now then
          putGiveaway st ch (withIsActive giveaway false)
        else addReactionEntry st ch (re_userId event) 1
    end.

Inductive TipReply :=
| TipIgnored
| TipExpired
| TipTooSmall
| TipCapReached
| TipGranted (entriesAdded : Z).

(** The number of entries a tip was credited with. *)
Definition entriesGranted (r : TipReply) : Z :=
  match r with
  | TipGranted n => n
  | _ => 0
  end.

(** [Number(n)] on a [bigint]: the double nearest to [n], ties going to the
    even significand.  An integer of at most 53 bits is kept; a longer one
    keeps its 53 leading bits, rounded.  From [2^1024 - 2^970] on [Number]
    gives [Infinity]: the handler only compares the value with 1 and takes
    its minimum with the remaining cap, a finite double, and the rounded
    integer, being above every finite double, gives the same answers. *)
Definition numberOfBigInt (n : Z) : Z :=
  let magnitude := Z.abs n in
  let excess := Z.log2 magnitude - 52 in
  if excess <=? 0 then n
  else
    let ulp := 2 ^ excess in
    let significand := magnitude / ulp in
    let rest := magnitude mod ulp in
    let roundUp :=
      (ulp <? 2 * rest) || ((2 * rest =? ulp) && Z.odd significand) in
    Z.sgn n * ((if roundUp then significand + 1 else significand) * ulp).

(** The accounting part of [bot.onTip], from the computation of
    [potentialEntries] on; [giveaway] is the handler's giveaway object.
    [amount / tipEntryFee] is a [bigint] division: it truncates and throws
    a [RangeError] on a zero divisor; [Number] turns the quotient into a
    double. *)
Definition creditTip (st : BotState) (giveaway : Giveaway) (ch sender : string)
    (amount : Z) : option (BotState * TipReply) :=
  if tipEntryFee giveaway =? 0 then None
  else
    let potentialEntries :=
      numberOfBigInt (Z.quot amount (tipEntryFee giveaway)) in
    if potentialEntries <? 1 then Some (st, TipTooSmall)
    else
      let (st', entriesAdded) := addTipEntry st ch sender potentialEntries in
      if entriesAdded =? 0 then Some (st', TipCapReached)
      else Some (st', TipGranted entriesAdded).

Definition onTip (st : BotState) (botId : string) (now : Z) (event : TipEvent)
  : option (BotState * TipReply) :=
  let ch := te_channelId event in
  if negb (String.eqb (te_receiverAddress event) botId) then Some (st, TipIgnored)
  else
    match getGiveaway st ch with
    | None => Some (st, TipIgnored)
    | Some giveaway =>
        if negb (isActive giveaway) then Some (st, TipIgnored)
        else if endTime giveaway <? now then
          Some (putGiveaway st ch (withIsActive giveaway false), TipExpired)
        else creditTip st giveaway ch (te_senderAddress event) (te_amount event)
    end.

(** The body of the [setInterval] callback. *)
Definition sweep (st : BotState) (now : Z) : BotState :=
  mkState
    (map (fun entry : string * Giveaway =>
            let (ch, giveaway) := entry in
            if isActive giveaway && (endTime giveaway <? now)
            then (ch, withIsActive giveaway false)
            else (ch, giveaway))
       (activeGiveaways st))
    (ethPriceUsd st).

(** A run of the tip handler over a sequence of tip events, each with the
    time it arrives at.  A handler that throws has changed nothing. *)
Definition tipStep (botId : string) (st : BotState) (timed : Z * TipEvent)
  : BotState :=
  match onTip st botId (fst timed) (snd timed) with
  | Some (st', _) => st'
  | None => st
  end.

Definition runTips (botId : string) (st : BotState) (events : list (Z * TipEvent))
  : BotState :=
  fold_left (tipStep botId) events st.

(** ** Properties stated by the specification *)

(** Every stored count is at least 1: a key is created by a credit of at
    least one entry. *)
Definition countsPositive (m : JsMap.t Z) : Prop :=
  forall p n, JsMap.get m p = Some n -> 1 <= n.

Definition ledgerPositive (g : Giveaway) : Prop :=
  countsPositive (reactionEntries g) /\ countsPositive (tipEntries g).

Definition registryPositive (st : BotState) : Prop :=
  forall ch g, getGiveaway st ch = Some g -> ledgerPositive g.



(** Sum of a list of counts. *)
Definition sumZ (l : list Z) : Z := fold_right Z.add 0 l.


(** The duration grammar in the words of the specification: one or more
    decimal digits followed by one unit letter, in either case. *)
Definition decimalDigit (c : ascii) : Prop :=
  In c ["0"; "1"; "2"; "3"; "4"; "5"; "6"; "7"; "8"; "9"]%char.

Definition unitLetter (c : ascii) : Prop :=
  In c ["m"; "h"; "d"; "M"; "H"; "D"]%char.

Definition DurationGrammar (s : string) : Prop :=
  exists ds u,
    s = (ds ++ String u EmptyString)%string /\
    ds <> EmptyString /\
    Forall decimalDigit (list_ascii_of_string ds) /\
    unitLetter u.

(** Milliseconds in one unit of the grammar. *)
Definition unitMillis (u : ascii) : Z :=
  if (Ascii.eqb u "m" || Ascii.eqb u "M")%bool then 60000
  else if (Ascii.eqb u "h" || Ascii.eqb u "H")%bool then 3600000
  else if (Ascii.eqb u "d" || Ascii.eqb u "D")%bool then 86400000
  else 0.

(** The value of a decimal numeral from its digits, least significant
    first, and the value of a numeral as it is written. *)
Fixpoint decimalValue (digitsRev : list ascii) : Z :=
  match digitsRev with
  | [] => 0
  | c :: more => (Z.of_nat (nat_of_ascii c) - 48) + 10 * decimalValue more
  end.

Definition numeralValue (ds : string) : Z :=
  decimalValue (rev (list_ascii_of_string ds)).

(** What one tip for [userId] on channel [ch] may do to the giveaway [g]
    stored under [ch']: cap, fee and reaction entries stay; a tip count
    stays, or it is the tipping user's, was below the cap and grows without
    passing the cap. *)
Definition tipFrame (ch userId ch' : string) (g g' : Giveaway) : Prop :=
  tipEntryCap g' = tipEntryCap g /\
  tipEntryFee g' = tipEntryFee g /\
  reactionEntries g' = reactionEntries g /\
  (countsPositive (tipEntries g) -> countsPositive (tipEntries g')) /\
  forall q,
    getOr0 (tipEntries g') q = getOr0 (tipEntries g) q \/
    (ch' = ch /\ q = userId /\
     getOr0 (tipEntries g) q < getOr0 (tipEntries g') q <= tipEntryCap g).

(** ** A running example *)

Definition exampleGiveaway : Giveaway :=
  mkGiveaway "general" "100 USDC" 0 86400000 1000 10
    JsMap.empty JsMap.empty true (Some "announcement-1"%string).

Definition exampleState : BotState :=
  mkState [("general"%string, exampleGiveaway)] (3000 # 1).

Definition exampleTips : list (Z * TipEvent) :=
  [ (10, mkTip "general" "bot" "alice" 15000);
    (20, mkTip "general" "bot" "bob" 2500);
    (30, mkTip "general" "bot" "alice" 3000) ].

(** The example after the three tips, and after its end time has passed. *)
Definition exampleTippedGiveaway : Giveaway :=
  withTipEntries exampleGiveaway [("alice"%string, 10); ("bob"%string, 2)].

Definition exampleTipped : BotState :=
  mkState [("general"%string, exampleTippedGiveaway)] (3000 # 1).

Definition exampleExpired : BotState := sweep exampleTipped 86400001.

(** A pool holding each user [weight] times, in the order of [users]. *)
Definition poolOf (weight : string -> nat) (users : list string) : list string :=
  flat_map (fun userId => repeat userId (weight userId)) users.


(** ** More of the bot: the display of the remaining time *)

(** [`${n}`] for an integer. *)
Definition showZ (n : Z) : string := NilZero.string_of_int (Z.to_int n).

(** What [formatTimeRemaining] shows: nothing left, or the two largest
    units that apply. *)
Inductive TimeRemaining :=
| TimeEnded
| DaysHours (days hours : Z)
| HoursMinutes (hours minutes : Z)
| MinutesSeconds (minutes seconds : Z)
| SecondsOnly (seconds : Z).

(** The computation of [formatTimeRemaining]; [now] is [new Date()].
    [Math.floor] of a quotient of non-negative integers is [/], and [%] on
    them is [mod]. *)
Definition timeRemaining (finish now : Z) : TimeRemaining :=
  let msRemaining := finish - now in
  if msRemaining <=? 0 then TimeEnded
  else
    let seconds := msRemaining / 1000 in
    let minutes := seconds / 60 in
    let hours := minutes / 60 in
    let days := hours / 24 in
    if 0 <? days then DaysHours days (hours mod 24)
    else if 0 <? hours then HoursMinutes hours (minutes mod 60)
    else if 0 <? minutes then MinutesSeconds minutes (seconds mod 60)
    else SecondsOnly seconds.

Definition renderTimeRemaining (t : TimeRemaining) : string :=
  match t with
  | TimeEnded => "Ended"
  | DaysHours d h => showZ d ++ "d " ++ showZ h ++ "h"
  | HoursMinutes h m => showZ h ++ "h " ++ showZ m ++ "m"
  | MinutesSeconds m s => showZ m ++ "m " ++ showZ s ++ "s"
  | SecondsOnly s => showZ s ++ "s"
  end%string.

Definition formatTimeRemaining (finish now : Z) : string :=
  renderTimeRemaining (timeRemaining finish now).

(** ** More of the bot: the status command *)

Record StatusRow := mkStatusRow {
  row_userId : string;
  row_total : Z;
  row_reactions : Z;
  row_tips : Z
}.

Definition statusRows (giveaway : Giveaway) : list StatusRow :=
  map (fun userId =>
         mkStatusRow userId (getTotalEntries giveaway userId)
           (getOr0 (reactionEntries giveaway) userId)
           (getOr0 (tipEntries giveaway) userId))
    (allUsers giveaway).

(** [rows.sort((a, b) => b.total - a.total)].  [Array.prototype.sort] is
    stable, and a stable sort has one result whatever its algorithm: rows in
    descending order of [total], rows of equal [total] in their former
    order.  Here each row is put before the first row that is not larger. *)
Fixpoint insertRow (row : StatusRow) (sorted : list StatusRow) : list StatusRow :=
  match sorted with
  | [] => [row]
  | x :: rest =>
      if row_total row <? row_total x then x :: insertRow row rest
      else row :: x :: rest
  end.

Definition sortRows (rows : list StatusRow) : list StatusRow :=
  fold_right insertRow [] rows.

(** [.slice(0, 5)] of the sorted rows. *)
Definition topParticipants (giveaway : Giveaway) : list StatusRow :=
  firstn 5 (sortRows (statusRows giveaway)).

Record StatusReport := mkStatusReport {
  sr_prize : string;
  sr_started : Z;
  sr_ends : Z;
  sr_remaining : string;
  sr_tipFeeUsd : Q;
  sr_tipEntryFee : Z;
  sr_tipEntryCap : Z;
  sr_capAmountUsd : Q;
  sr_totalEntries : Z;
  sr_participants : nat;
  sr_top : list StatusRow
}.

Inductive StatusReply :=
| StatusNoActiveGiveaway
| StatusShown (report : StatusReport).

(** The [status] branch of the [giveaway] command. *)
Definition giveawayStatus (st : BotState) (now : Z) (ch : string) : StatusReply :=
  match getGiveaway st ch with
  | None => StatusNoActiveGiveaway
  | Some giveaway =>
      if negb (isActive giveaway) then StatusNoActiveGiveaway
      else
        let totalEntries :=
          fold_left (fun sum userId => sum + getTotalEntries giveaway userId)
            (allUsers giveaway) 0 in
        let tipFeeUsd :=
          (inject_Z (tipEntryFee giveaway) / inject_Z (10 ^ 18) * ethPriceUsd st)%Q in
        let capAmountUsd := (tipFeeUsd * inject_Z (tipEntryCap giveaway))%Q in
        StatusShown
          (mkStatusReport (prize giveaway) (startTime giveaway) (endTime giveaway)
             (formatTimeRemaining (endTime giveaway) now)
             tipFeeUsd (tipEntryFee giveaway) (tipEntryCap giveaway) capAmountUsd
             totalEntries (List.length (allUsers giveaway))
             (topParticipants giveaway))
  end.

(** ** More of the bot: the [create] branch of the slash command

    [rest] is [args] without its first element, the subcommand.  The values
    of the [fee:] and [cap:] options, read by [parseFloat] and [parseInt],
    are the inputs [tipFeeUsd] and [tipEntryCap] (the defaults when the
    option is absent). *)

Inductive SlashCreateReply :=
| ReplyAlreadyActive
| ReplyTemplate
| ReplyUsage
| ReplyInvalidDuration
| ReplyStarted.

(** [args.slice(1, -1).join(' ')] and [args[args.length - 1]]. *)
Definition prizeOfArgs (rest : list string) : string :=
  String.concat " " (removelast rest).

Definition durationOfArgs (rest : list string) : string :=
  last rest EmptyString.

(** [args.find(arg => arg.startsWith(name))]. *)
Definition findOption (name : string) (rest : list string) : option string :=
  find (String.prefix name) rest.

Definition replyOfCreate (r : CreateResult) : SlashCreateReply :=
  match r with
  | CreateSuccess => ReplyStarted
  | CreateInvalidDuration => ReplyInvalidDuration
  | CreateAlreadyActive => ReplyAlreadyActive
  end.

(** The branch with the [createGiveaway] helper: [creating] is
    [giveawayCreationState], [templateId] the id of the template message. *)
Definition giveawayCreate (st : BotState) (creating : JsMap.t (string * string))
    (now : Z) (templateId eventId ch userId : string) (rest : list string)
    (tipFeeUsd : Q) (cap : Z)
  : option (BotState * JsMap.t (string * string) * SlashCreateReply) :=
  let blocked :=
    match getGiveaway st ch with
    | Some existing => isActive existing
    | None => false
    end in
  if blocked then Some (st, creating, ReplyAlreadyActive)
  else
    match rest with
    | [] => Some (st, JsMap.set creating userId (ch, templateId), ReplyTemplate)
    | _ :: _ =>
        let prizeText := prizeOfArgs rest in
        let durationStr := durationOfArgs rest in
        if (String.eqb prizeText EmptyString || String.eqb durationStr EmptyString)%bool
        then Some (st, creating, ReplyUsage)
        else
          match createGiveaway st now eventId ch prizeText durationStr tipFeeUsd cap with
          | None => None
          | Some (st', r) => Some (st', creating, replyOfCreate r)
          end
    end.

(** The oldest [create] branch, with the parsing inline: the regular
    expression has no [i] flag and the unit is compared as it is written.
    (With nothing after the subcommand the prize is empty and the usage text
    is sent, whatever the last element of [args] is.) *)
Definition isUnitInline (c : ascii) : bool :=
  existsb (Ascii.eqb c) ["h"; "d"; "m"]%char.

Definition matchDurationInline (durationStr : string) : option (string * ascii) :=
  match spanDigits durationStr with
  | (EmptyString, _) => None
  | (ds, String u EmptyString) => if isUnitInline u then Some (ds, u) else None
  | (_, _) => None
  end.

Definition giveawayCreateInline (st : BotState) (now : Z) (eventId ch : string)
    (rest : list string) (tipFeeUsd : Q) (cap : Z)
  : option (BotState * SlashCreateReply) :=
  let prizeText := prizeOfArgs rest in
  let durationStr := durationOfArgs rest in
  if (String.eqb prizeText EmptyString || String.eqb durationStr EmptyString)%bool
  then Some (st, ReplyUsage)
  else
    match matchDurationInline durationStr with
    | None => Some (st, ReplyInvalidDuration)
    | Some (digits, durationUnit) =>
        let durationValue := parseInt digits in
        let msDuration := msOfDuration durationValue durationUnit in
        let blocked :=
          match getGiveaway st ch with
          | Some existing => isActive existing
          | None => false
          end in
        if blocked then Some (st, ReplyAlreadyActive)
        else
          match usdToWei st tipFeeUsd with
          | None => None
          | Some fee =>
              let start := now in
              let finish := start + msDuration in
              let giveaway :=
                mkGiveaway ch prizeText start finish fee cap
                  JsMap.empty JsMap.empty true None in
              Some (putGiveaway st ch (withAnnouncement giveaway eventId),
                    ReplyStarted)
          end
    end.

(** ** The bot as a state machine

    One event is one call of a handler, and the handlers run one at a time,
    each to its end: another handler running while one awaits a message
    being sent is not modelled.  [EvCreate] is a call of [createGiveaway]
    with whatever fee and cap its caller passes, both numbers (a cap that is
    [NaN] is not an event).  A handler that throws leaves the state as it
    was. *)

Inductive BotEvent :=
| EvCreate (now : Z) (eventId ch prizeText durationStr : string) (tipFeeUsd : Q) (cap : Z)
| EvEnd (ch : string) (rnd : Q)
| EvSetFee (ch : string) (feeArg : NumArg Q)
| EvSetCap (ch : string) (capArg : NumArg Z)
| EvSetEthPrice (priceArg : NumArg Q)
| EvReaction (now : Z) (event : ReactionEvent)
| EvTip (now : Z) (event : TipEvent)
| EvSweep (now : Z).

Definition handle (botId : string) (st : BotState) (ev : BotEvent) : BotState :=
  match ev with
  | EvCreate now eventId ch prizeText durationStr tipFeeUsd cap =>
      match createGiveaway st now eventId ch prizeText durationStr tipFeeUsd cap with
      | Some (st', _) => st'
      | None => st
      end
  | EvEnd ch rnd => fst (giveawayEnd st ch rnd)
  | EvSetFee ch feeArg =>
      match giveawaySetFee st ch feeArg with
      | Some (st', _) => st'
      | None => st
      end
  | EvSetCap ch capArg => fst (giveawaySetCap st ch capArg)
  | EvSetEthPrice priceArg => fst (giveawaySetEthPrice st priceArg)
  | EvReaction now event => onReaction st now event
  | EvTip now event => tipStep botId st (now, event)
  | EvSweep now => sweep st now
  end.

(** The state at start-up: no giveaway, 3000 USD for one ETH. *)
Definition initialState : BotState := mkState JsMap.empty (3000 # 1).

Definition run (botId : string) (st : BotState) (events : list BotEvent) : BotState :=
  fold_left (handle botId) events st.

(** A stored record is well formed: it is stored under its own channel, it
    does not end before it starts, and its announcement is known. *)
Definition recordWellFormed (ch : string) (g : Giveaway) : Prop :=
  channelId g = ch /\ startTime g <= endTime g /\ announcementMessageId g <> None.

(** What the expiry sweep does to one record. *)
Definition expire (now : Z) (g : Giveaway) : Giveaway :=
  if isActive g && (endTime g <? now) then withIsActive g false else g.


(** How a handler may change a stored record: its channel, times and
    announcement stay, and entry maps of positive counts stay so. *)
Definition recordEvolves (g g' : Giveaway) : Prop :=
  channelId g' = channelId g /\ startTime g' = startTime g /\
  endTime g' = endTime g /\
  announcementMessageId g' = announcementMessageId g /\
  (countsPositive (reactionEntries g) -> countsPositive (reactionEntries g')) /\
  (countsPositive (tipEntries g) -> countsPositive (tipEntries g')).

(** A record as [createGiveaway] stores it. *)
Definition recordFresh (ch : string) (g : Giveaway) : Prop :=
  recordWellFormed ch g /\ isActive g = true /\
  reactionEntries g = JsMap.empty /\ tipEntries g = JsMap.empty.

(** A short life of the bot: a giveaway is created, alice reacts and
    tips. *)
Definition exampleEvents : list BotEvent :=
  [ EvCreate 0 "announcement-1" "general" "100 USDC" "24h" (1 # 2) 10;
    EvReaction 5 (mkReaction giftEmoji "general" "announcement-1" "alice");
    EvTip 10 (mkTip "general" "bot" "alice" 500000000000000) ].

(** A tip of 9007199254740993 times a fee of 10^12 wei into a giveaway of cap
    9007199254740994. *)
Definition exampleLargeCap : Giveaway :=
  mkGiveaway "general" "100 USDC" 0 86400000 1000000000000 9007199254740994
    JsMap.empty JsMap.empty true (Some "announcement-1"%string).

Definition exampleLargeCapState : BotState :=
  mkState [("general"%string, exampleLargeCap)] (3000 # 1).

Definition exampleLargeTip : Z := 9007199254740993 * 1000000000000.

(** ** The range of dates and the grammar of the inline branch *)

(** A [Date] holds a time value of at most 8.64e15 ms in magnitude. *)
Definition maxTimeValue : Z := 8640000000000000.

Definition validTime (t : Z) : Prop := - maxTimeValue <= t <= maxTimeValue.

(** The grammar of the inline [create] branch in words: one or more decimal
    digits followed by one of the lower-case letters [m], [h], [d]. *)
Definition lowerUnitLetter (c : ascii) : Prop := In c ["m"; "h"; "d"]%char.

Definition DurationGrammarLower (s : string) : Prop :=
  exists ds u,
    s = (ds ++ String u EmptyString)%string /\
    ds <> EmptyString /\
    Forall decimalDigit (list_ascii_of_string ds) /\
    lowerUnitLetter u.

(** ** Facts about [JsMap] *)

Module JsMapFacts.
Import JsMap.

Section Facts.
Context {V : Type}.
Implicit Types (m : JsMap.t V) (k : string) (v : V).

Lemma get_set_same m k v : get (set m k v) k = Some v.
Proof.
  induction m as [|[k' v'] m IH]; simpl.
  - now rewrite String.eqb_refl.
  - destruct (String.eqb k' k) eqn:E; simpl; rewrite E; auto.
Qed.

Lemma get_set_other m k k' v : k <> k' -> get (set m k v) k' = get m k'.
Proof.
  intros Hne. induction m as [|[k0 v0] m IH]; simpl.
  - destruct (String.eqb_spec k k'); congruence.
  - destruct (String.eqb_spec k0 k) as [->|Hk]; simpl.
    + destruct (String.eqb_spec k k'); congruence.
    + destruct (String.eqb_spec k0 k'); auto.
Qed.

Lemma get_set m k k' v :
  get (set m k v) k' = if String.eqb k k' then Some v else get m k'.
Proof.
  destruct (String.eqb_spec k k') as [->|Hne].
  - apply get_set_same.
  - now apply get_set_other.
Qed.

Lemma get_delete_same m k : get (delete m k) k = None.
Proof.
  induction m as [|[k' v'] m IH]; simpl; auto.
  destruct (String.eqb k' k) eqn:E; simpl; auto.
  now rewrite E.
Qed.

Lemma get_delete_other m k k' : k <> k' -> get (delete m k) k' = get m k'.
Proof.
  intros Hne. induction m as [|[k0 v0] m IH]; simpl; auto.
  destruct (String.eqb_spec k0 k) as [->|Hk]; simpl.
  - destruct (String.eqb_spec k k'); congruence.
  - now rewrite IH.
Qed.

Lemma get_Some_In_keys m k v : get m k = Some v -> In k (keys m).
Proof.
  induction m as [|[k' v'] m IH]; simpl; [discriminate|].
  destruct (String.eqb_spec k' k); auto.
Qed.

Lemma In_keys_get m k : In k (keys m) -> exists v, get m k = Some v.
Proof.
  induction m as [|[k' v'] m IH]; simpl; [tauto|].
  intros [->|Hin].
  - rewrite String.eqb_refl. eauto.
  - destruct (String.eqb k' k); eauto.
Qed.

Lemma get_None_keys m k : get m k = None <-> ~ In k (keys m).
Proof.
  split.
  - intros Hg Hin. apply In_keys_get in Hin as [v Hv]. congruence.
  - intros Hn. destruct (get m k) eqn:E; auto.
    apply get_Some_In_keys in E. contradiction.
Qed.

Lemma get_In m k v : get m k = Some v -> In (k, v) m.
Proof.
  induction m as [|[k' v'] m IH]; simpl; [discriminate|].
  destruct (String.eqb_spec k' k) as [->|]; intros H.
  - injection H as ->. now left.
  - right. auto.
Qed.

End Facts.

End JsMapFacts.

(** ** Registry and ledger lemmas *)

Lemma getGiveaway_put_same st ch g :
  getGiveaway (putGiveaway st ch g) ch = Some g.
Proof. apply JsMapFacts.get_set_same. Qed.

Lemma getGiveaway_put_other st ch ch' g :
  ch <> ch' -> getGiveaway (putGiveaway st ch g) ch' = getGiveaway st ch'.
Proof. apply JsMapFacts.get_set_other. Qed.

Lemma getGiveaway_put st ch ch' g :
  getGiveaway (putGiveaway st ch g) ch' =
  if String.eqb ch ch' then Some g else getGiveaway st ch'.
Proof. apply JsMapFacts.get_set. Qed.

Lemma getGiveaway_delete_same st ch :
  getGiveaway (deleteGiveaway st ch) ch = None.
Proof. apply JsMapFacts.get_delete_same. Qed.

Lemma getOr0_set m k k' v :
  getOr0 (JsMap.set m k v) k' = if String.eqb k k' then v else getOr0 m k'.
Proof. unfold getOr0. rewrite JsMapFacts.get_set. now destruct (String.eqb k k'). Qed.


Lemma countsPositive_getOr0 m p : countsPositive m -> 0 <= getOr0 m p.
Proof.
  intros Hm. unfold getOr0. destruct (JsMap.get m p) eqn:E; [|lia].
  apply Hm in E. lia.
Qed.

Lemma countsPositive_set m k v :
  countsPositive m -> 1 <= v -> countsPositive (JsMap.set m k v).
Proof.
  intros Hm Hv p n. rewrite JsMapFacts.get_set.
  destruct (String.eqb k p); [intros [= <-]; exact Hv | apply Hm].
Qed.

(** What [addTipEntry] does on an active giveaway. *)
Lemma addTipEntry_active st ch g userId count :
  getGiveaway st ch = Some g -> isActive g = true ->
  addTipEntry st ch userId count =
  let current := getOr0 (tipEntries g) userId in
  let remainingCap := tipEntryCap g - current in
  if remainingCap <=? 0 then (st, 0)
  else (putGiveaway st ch
          (withTipEntries g
             (JsMap.set (tipEntries g) userId (current + Z.min count remainingCap))),
        Z.min count remainingCap).
Proof.
  intros Hg Ha. unfold addTipEntry. now rewrite Hg, Ha.
Qed.

Lemma addTipEntry_inactive st ch g userId count :
  getGiveaway st ch = Some g -> isActive g = false ->
  addTipEntry st ch userId count = (st, 0).
Proof.
  intros Hg Ha. unfold addTipEntry. now rewrite Hg, Ha.
Qed.

(** The effect of [addTipEntry] with a count of at least one on any stored
    giveaway: the cap, the fee and the reaction entries stay; a tip count
    either stays or, for the tipping user below the cap, grows without
    passing the cap. *)
Lemma addTipEntry_effect st ch userId count :
  1 <= count ->
  forall ch' g, getGiveaway st ch' = Some g ->
  exists g',
    getGiveaway (fst (addTipEntry st ch userId count)) ch' = Some g' /\
    tipEntryCap g' = tipEntryCap g /\
    tipEntryFee g' = tipEntryFee g /\
    isActive g' = isActive g /\
    reactionEntries g' = reactionEntries g /\
    (countsPositive (tipEntries g) -> countsPositive (tipEntries g')) /\
    forall q,
      getOr0 (tipEntries g') q = getOr0 (tipEntries g) q \/
      (ch' = ch /\ q = userId /\
       getOr0 (tipEntries g) q < getOr0 (tipEntries g') q <= tipEntryCap g).
Proof.
  intros Hc ch' g Hg.
  assert (Hsame : exists g', getGiveaway st ch' = Some g' /\
            tipEntryCap g' = tipEntryCap g /\ tipEntryFee g' = tipEntryFee g /\
            isActive g' = isActive g /\
            reactionEntries g' = reactionEntries g /\
            (countsPositive (tipEntries g) -> countsPositive (tipEntries g')) /\
            forall q, getOr0 (tipEntries g') q = getOr0 (tipEntries g) q \/
              (ch' = ch /\ q = userId /\
               getOr0 (tipEntries g) q < getOr0 (tipEntries g') q <= tipEntryCap g)).
  { exists g. repeat split; auto. }
  unfold addTipEntry.
  destruct (getGiveaway st ch) as [g0|] eqn:Hg0; [|exact Hsame].
  destruct (isActive g0) eqn:Ha; simpl; [|exact Hsame].
  destruct (tipEntryCap g0 - getOr0 (tipEntries g0) userId <=? 0) eqn:Hrem;
    [exact Hsame|]. simpl fst.
  apply Z.leb_gt in Hrem.
  rewrite getGiveaway_put.
  destruct (String.eqb_spec ch ch') as [->|Hne]; [|exact Hsame].
  rewrite Hg in Hg0. injection Hg0 as <-.
  eexists. split; [reflexivity|]. simpl.
  repeat split; auto.
  - intros Hpos. apply countsPositive_set; auto.
    pose proof (countsPositive_getOr0 _ userId Hpos). lia.
  - intros q. rewrite getOr0_set.
    destruct (String.eqb_spec userId q) as [->|Hq]; [right|left; reflexivity].
    repeat split; lia.
Qed.

Lemma tipFrame_refl ch userId ch' g : tipFrame ch userId ch' g g.
Proof. unfold tipFrame. repeat split; auto. Qed.

Lemma creditTip_effect st g0 ch sender amount st' r :
  creditTip st g0 ch sender amount = Some (st', r) ->
  forall ch' g, getGiveaway st ch' = Some g ->
  exists g', getGiveaway st' ch' = Some g' /\ isActive g' = isActive g /\
             tipFrame ch sender ch' g g'.
Proof.
  unfold creditTip. intros H ch' g Hg.
  destruct (tipEntryFee g0 =? 0); [discriminate|].
  destruct (numberOfBigInt (Z.quot amount (tipEntryFee g0)) <? 1) eqn:Hp.
  - injection H as <- _. exists g. auto using tipFrame_refl.
  - apply Z.ltb_ge in Hp.
    destruct (addTipEntry_effect st ch sender _ Hp ch' g Hg)
      as (g' & Hg' & Hcap & Hfee & Hact & Hre & Hpos & Hq).
    destruct (addTipEntry st ch sender
                (numberOfBigInt (Z.quot amount (tipEntryFee g0))))
      as [st1 added] eqn:Hadd.
    simpl in Hg'.
    assert (st' = st1) as -> by (destruct (added =? 0); congruence).
    exists g'. unfold tipFrame. auto 10.
Qed.

Lemma onTip_effect st botId now event st' r :
  onTip st botId now event = Some (st', r) ->
  forall ch' g, getGiveaway st ch' = Some g ->
  exists g', getGiveaway st' ch' = Some g' /\
             tipFrame (te_channelId event) (te_senderAddress event) ch' g g'.
Proof.
  unfold onTip. intros H ch' g Hg.
  assert (Hsame : st' = st -> exists g', getGiveaway st' ch' = Some g' /\
             tipFrame (te_channelId event) (te_senderAddress event) ch' g g').
  { intros ->. exists g. auto using tipFrame_refl. }
  destruct (negb (te_receiverAddress event =? botId)%string);
    [apply Hsame; congruence|].
  destruct (getGiveaway st (te_channelId event)) as [g0|] eqn:Hg0;
    [|apply Hsame; congruence].
  destruct (negb (isActive g0)); [apply Hsame; congruence|].
  destruct (endTime g0 <? now).
  - injection H as <- _. rewrite getGiveaway_put.
    destruct (String.eqb_spec (te_channelId event) ch') as [E|_].
    + rewrite E in Hg0. rewrite Hg in Hg0. injection Hg0 as <-.
      eexists. split; [reflexivity|]. unfold tipFrame. simpl. auto 10.
    + exists g. auto using tipFrame_refl.
  - destruct (creditTip_effect _ _ _ _ _ _ _ H ch' g Hg) as (g' & ? & ? & ?).
    eauto.
Qed.

Lemma tipStep_effect botId st timed :
  forall ch' g, getGiveaway st ch' = Some g ->
  exists g', getGiveaway (tipStep botId st timed) ch' = Some g' /\
             tipFrame (te_channelId (snd timed)) (te_senderAddress (snd timed))
               ch' g g'.
Proof.
  intros ch' g Hg. unfold tipStep.
  destruct (onTip st botId (fst timed) (snd timed)) as [[st' r]|] eqn:H.
  - eapply onTip_effect; eauto.
  - exists g. auto using tipFrame_refl.
Qed.


(** A tip creates no registry entry. *)
Lemma addTipEntry_no_new st ch userId count ch' :
  getGiveaway st ch' = None ->
  getGiveaway (fst (addTipEntry st ch userId count)) ch' = None.
Proof.
  intros Hn. unfold addTipEntry.
  destruct (getGiveaway st ch) as [g0|] eqn:Hg0; auto.
  destruct (negb (isActive g0)); auto.
  destruct (_ <=? 0); auto. simpl.
  rewrite getGiveaway_put_other; congruence.
Qed.

Lemma tipStep_no_new botId st timed ch' :
  getGiveaway st ch' = None -> getGiveaway (tipStep botId st timed) ch' = None.
Proof.
  intros Hn. unfold tipStep, onTip, creditTip.
  destruct (negb (te_receiverAddress (snd timed) =? botId)%string); auto.
  destruct (getGiveaway st (te_channelId (snd timed))) as [g0|] eqn:Hg0; auto.
  destruct (negb (isActive g0)); auto.
  destruct (endTime g0 <? fst timed).
  - rewrite getGiveaway_put_other; congruence.
  - destruct (tipEntryFee g0 =? 0); auto.
    destruct (_ <? 1); auto.
    pose proof (addTipEntry_no_new st (te_channelId (snd timed))
                  (te_senderAddress (snd timed))
                  (numberOfBigInt (Z.quot (te_amount (snd timed)) (tipEntryFee g0)))
                  ch' Hn) as H.
    destruct (addTipEntry _ _ _ _) as [st1 added]. simpl in H.
    now destruct (added =? 0).
Qed.



(** ** The cap invariant *)



(** ** Crediting a tip *)

(** Truncating and flooring division agree wherever the handler looks. *)
Lemma quot_floor_pos a f :
  0 < f -> (Z.quot a f <? 1) = (a / f <? 1) /\ (1 <= a / f -> Z.quot a f = a / f).
Proof.
  intros Hf. destruct (Z.le_gt_cases 0 a) as [Ha|Ha].
  - rewrite (Z.quot_div_nonneg a f Ha Hf). auto.
  - assert (H1 : a / f < 0) by (apply Z.div_lt_upper_bound; lia).
    assert (H2 : Z.quot a f <= 0).
    { replace a with (- - a) by lia. rewrite Z.quot_opp_l by lia.
      pose proof (Z.quot_pos (- a) f). lia. }
    split; [|lia].
    transitivity true; [apply Z.ltb_lt | symmetry; apply Z.ltb_lt]; lia.
Qed.

Lemma quot_floor a f :
  f <> 0 -> (Z.quot a f <? 1) = (a / f <? 1) /\ (1 <= a / f -> Z.quot a f = a / f).
Proof.
  intros Hf. destruct (Z.lt_trichotomy f 0) as [Hn|[?|Hp]]; [|lia|].
  - rewrite <- (Z.quot_opp_opp a f Hf), <- (Z.div_opp_opp a f Hf).
    apply quot_floor_pos. lia.
  - now apply quot_floor_pos.
Qed.

(** [Number] keeps an integer of magnitude up to [2^53]. *)
Lemma numberOfBigInt_exact n : Z.abs n <= 2 ^ 53 -> numberOfBigInt n = n.
Proof.
  intros Hn. unfold numberOfBigInt.
  destruct (Z.leb_spec (Z.log2 (Z.abs n) - 52) 0) as [|Hbig]; [reflexivity|].
  assert (Hlog : 2 ^ 53 <= Z.abs n).
  { destruct (Z.le_gt_cases (2 ^ 53) (Z.abs n)) as [|Hlt]; [assumption|].
    assert (Z.log2 (Z.abs n) < 53); [|lia].
    destruct (Z.le_gt_cases (Z.abs n) 0) as [H0|H0].
    - rewrite Z.log2_nonpos by assumption. lia.
    - apply Z.log2_lt_pow2; assumption. }
  assert (Habs : Z.abs n = 2 ^ 53) by lia.
  destruct (Z.abs_eq_or_opp n) as [E|E]; rewrite E in Habs.
  - subst n. vm_compute. reflexivity.
  - assert (n = - 2 ^ 53) as -> by lia. vm_compute. reflexivity.
Qed.

(** Rounding does not bring a quotient of [2^53] or more below [2^53]. *)
Lemma numberOfBigInt_large n : 2 ^ 53 <= n -> 2 ^ 53 <= numberOfBigInt n.
Proof.
  intros Hn. unfold numberOfBigInt.
  assert (Hpos : 0 < n) by (pose proof (Z.pow_pos_nonneg 2 53); lia).
  rewrite (Z.abs_eq n) by lia.
  assert (Hlog : 53 <= Z.log2 n).
  { change 53 with (Z.log2 (2 ^ 53)). now apply Z.log2_le_mono. }
  destruct (Z.leb_spec (Z.log2 n - 52) 0) as [|_]; [lia|].
  set (excess := Z.log2 n - 52).
  assert (Hex : 1 <= excess) by (unfold excess; lia).
  assert (Hulp : 2 <= 2 ^ excess).
  { change 2 with (2 ^ 1) at 1. apply Z.pow_le_mono_r; lia. }
  assert (Hsig : 2 ^ 52 <= n / 2 ^ excess).
  { apply Z.div_le_lower_bound; [lia|].
    rewrite Z.mul_comm, <- Z.pow_add_r by lia.
    replace (52 + excess) with (Z.log2 n) by (unfold excess; lia).
    apply Z.log2_spec. lia. }
  rewrite Z.sgn_pos, Z.mul_1_l by lia.
  assert (Hmul : 2 ^ 52 * 2 <= n / 2 ^ excess * 2 ^ excess).
  { apply Z.mul_le_mono_nonneg; lia. }
  change (2 ^ 53) with (2 ^ 52 * 2).
  destruct (_ || _)%bool; nia.
Qed.

(** [Number] keeps the sign. *)
Lemma numberOfBigInt_nonpos n : n <= 0 -> numberOfBigInt n <= 0.
Proof.
  intros Hn. unfold numberOfBigInt.
  destruct (Z.leb_spec (Z.log2 (Z.abs n) - 52) 0) as [|Hex]; [assumption|].
  set (ulp := 2 ^ _).
  assert (Hulp : 0 < ulp) by (apply Z.pow_pos_nonneg; lia).
  assert (Hsig : 0 <= Z.abs n / ulp) by (apply Z.div_pos; lia).
  assert (Hs : Z.sgn n <= 0) by (destruct n; simpl; lia).
  destruct (_ || _)%bool; nia.
Qed.

(** The quotient as the handler sees it and the floor of the
    specification: on the same side of 1, equal up to [2^53], and both at
    least [2^53] beyond. *)
Lemma potentialEntries_floor a f :
  f <> 0 ->
  (numberOfBigInt (Z.quot a f) <? 1) = (numberOfBigInt (a / f) <? 1) /\
  (1 <= numberOfBigInt (a / f) -> Z.quot a f = a / f) /\
  (numberOfBigInt (a / f) < 1 <-> a / f < 1).
Proof.
  intros Hf. destruct (quot_floor a f Hf) as [Hlt Heq].
  assert (Hside : forall n, numberOfBigInt n < 1 <-> n < 1).
  { intros n. split; intros H.
    - destruct (Z.le_gt_cases (2 ^ 53) n) as [Hbig|Hsmall].
      + pose proof (numberOfBigInt_large n Hbig). lia.
      + destruct (Z.le_gt_cases n 0) as [|Hpos]; [lia|].
        rewrite numberOfBigInt_exact in H by lia. exact H.
    - pose proof (numberOfBigInt_nonpos n). lia. }
  split; [|split].
  - transitivity (Z.quot a f <? 1).
    + destruct (Z.ltb_spec (numberOfBigInt (Z.quot a f)) 1) as [H|H];
        symmetry; [apply Z.ltb_lt | apply Z.ltb_ge]; pose proof (Hside (Z.quot a f));
        lia.
    + rewrite Hlt.
      destruct (Z.ltb_spec (numberOfBigInt (a / f)) 1) as [H|H];
        [apply Z.ltb_lt | apply Z.ltb_ge]; pose proof (Hside (a / f)); lia.
  - intros H. apply Heq. pose proof (Hside (a / f)). lia.
  - apply Hside.
Qed.

(** C2, counterexample.  With a cap above [2^53] and a tip worth [2^53 + 1]
    entries, [floor(amount / tipEntryFee)] is 9007199254740993 and the
    remaining cap 9007199254740994, so the claim grants 9007199254740993
    entries; the handler converts the quotient with [Number], which rounds
    it to 9007199254740992, and grants and records that many. *)
Lemma creditTip_rounds_large_quotient :
  getGiveaway exampleLargeCapState "general" = Some exampleLargeCap /\
  isActive exampleLargeCap = true /\
  exampleLargeTip / tipEntryFee exampleLargeCap = 9007199254740993 /\
  Z.min (exampleLargeTip / tipEntryFee exampleLargeCap)
        (tipEntryCap exampleLargeCap - getOr0 (tipEntries exampleLargeCap) "alice")
    = 9007199254740993 /\
  exists st',
    creditTip exampleLargeCapState exampleLargeCap "general" "alice" exampleLargeTip
      = Some (st', TipGranted 9007199254740992) /\
    exists g', getGiveaway st' "general" = Some g' /\
               getOr0 (tipEntries g') "alice" = 9007199254740992.
Proof.
  split; [reflexivity|]. split; [reflexivity|].
  split; [vm_compute; reflexivity|]. split; [vm_compute; reflexivity|].
  eexists. split; [vm_compute; reflexivity|].
  eexists. split; vm_compute; reflexivity.
Qed.

(** C2 (amended).  On an active giveaway with a non-zero fee, whose cap is
    at most [2^53] and whose tip count for [p] is not negative, a tip of
    [amount] from [p] is credited as the specification says, with
    [potentialEntries = floor(amount / tipEntryFee)]: nothing when
    [potentialEntries < 1], nothing when the remaining cap is not positive,
    and otherwise [min(potentialEntries, remainingCap)] entries, added to
    [tipEntries[p]] and to nothing else.  (The handler takes the minimum with
    [Number(potentialEntries)], which differs from [potentialEntries] only
    above [2^53], where both exceed the remaining cap.)  A tip worth 15
    entries against a cap of 10 with no prior tip entries records 10 and
    returns 10. *)
Theorem creditTip_grants st g ch p amount :
  getGiveaway st ch = Some g -> isActive g = true -> tipEntryFee g <> 0 ->
  0 <= getOr0 (tipEntries g) p -> tipEntryCap g <= 2 ^ 53 ->
  let potentialEntries := amount / tipEntryFee g in
  let remainingCap := tipEntryCap g - getOr0 (tipEntries g) p in
  (Z.abs potentialEntries <= 2 ^ 53 ->
     numberOfBigInt potentialEntries = potentialEntries) /\
  (2 ^ 53 <= potentialEntries -> 2 ^ 53 <= numberOfBigInt potentialEntries) /\
  exists st' r,
    creditTip st g ch p amount = Some (st', r) /\
    (potentialEntries < 1 -> st' = st /\ entriesGranted r = 0) /\
    (1 <= potentialEntries -> remainingCap <= 0 -> st' = st /\ entriesGranted r = 0) /\
    (1 <= potentialEntries -> 0 < remainingCap ->
       let granted := Z.min potentialEntries remainingCap in
       entriesGranted r = granted /\
       (forall ch', ch' <> ch -> getGiveaway st' ch' = getGiveaway st ch') /\
       exists g',
         getGiveaway st' ch = Some g' /\
         getOr0 (tipEntries g') p = getOr0 (tipEntries g) p + granted /\
         (forall q, q <> p -> getOr0 (tipEntries g') q = getOr0 (tipEntries g) q) /\
         reactionEntries g' = reactionEntries g /\
         tipEntryCap g' = tipEntryCap g /\ tipEntryFee g' = tipEntryFee g /\
         isActive g' = true) /\
    (potentialEntries = 15 -> tipEntryCap g = 10 -> getOr0 (tipEntries g) p = 0 ->
       entriesGranted r = 10 /\
       exists g', getGiveaway st' ch = Some g' /\ getOr0 (tipEntries g') p = 10).
Proof.
  intros Hg Ha Hfee Hcount Hcap potentialEntries remainingCap.
  destruct (potentialEntries_floor amount (tipEntryFee g) Hfee) as (Hlt & Heq & Hside).
  fold potentialEntries in Hlt, Heq, Hside.
  split; [apply numberOfBigInt_exact|].
  split; [apply numberOfBigInt_large|].
  assert (Hmin : 1 <= potentialEntries ->
            Z.min (numberOfBigInt potentialEntries) remainingCap
            = Z.min potentialEntries remainingCap).
  { intros Hone.
    destruct (Z.le_gt_cases potentialEntries (2 ^ 53)) as [Hsmall|Hbig].
    - rewrite numberOfBigInt_exact by lia. reflexivity.
    - pose proof (numberOfBigInt_large potentialEntries). unfold remainingCap. lia. }
  unfold creditTip.
  destruct (Z.eqb_spec (tipEntryFee g) 0) as [|_]; [contradiction|].
  rewrite Hlt.
  destruct (Z.ltb_spec (numberOfBigInt potentialEntries) 1) as [Hsmall|Hbig].
  - exists st, TipTooSmall. repeat split; auto; lia.
  - assert (Hone : 1 <= potentialEntries) by lia.
    rewrite (Heq Hbig). fold potentialEntries.
    rewrite (addTipEntry_active st ch g p _ Hg Ha).
    cbv zeta. fold remainingCap. rewrite (Hmin Hone).
    destruct (Z.leb_spec remainingCap 0) as [Hfull|Hroom].
    + exists st, TipCapReached. simpl. repeat split; auto; lia.
    + set (granted := Z.min potentialEntries remainingCap).
      assert (Hpos : 1 <= granted) by (unfold granted; lia).
      destruct (Z.eqb_spec granted 0) as [|_]; [lia|].
      eexists _, (TipGranted granted). split; [reflexivity|].
      assert (Hcase : entriesGranted (TipGranted granted) = granted /\
        (forall ch', ch' <> ch ->
           getGiveaway (putGiveaway st ch (withTipEntries g
              (JsMap.set (tipEntries g) p (getOr0 (tipEntries g) p + granted)))) ch'
           = getGiveaway st ch') /\
        exists g',
          getGiveaway (putGiveaway st ch (withTipEntries g
              (JsMap.set (tipEntries g) p (getOr0 (tipEntries g) p + granted)))) ch
            = Some g' /\
          getOr0 (tipEntries g') p = getOr0 (tipEntries g) p + granted /\
          (forall q, q <> p -> getOr0 (tipEntries g') q = getOr0 (tipEntries g) q) /\
          reactionEntries g' = reactionEntries g /\
          tipEntryCap g' = tipEntryCap g /\ tipEntryFee g' = tipEntryFee g /\
          isActive g' = true).
      { split; [reflexivity|]. split.
        - intros ch' Hne. apply getGiveaway_put_other. congruence.
        - eexists. split; [apply getGiveaway_put_same|]. simpl.
          repeat split; auto.
          + rewrite getOr0_set, String.eqb_refl. reflexivity.
          + intros q Hq. rewrite getOr0_set.
            destruct (String.eqb_spec p q); congruence. }
      split; [intros; lia|]. split; [intros; lia|].
      split; [intros _ _; exact Hcase|].
      intros H15 Hc H0. split.
      * simpl. unfold granted, remainingCap. lia.
      * destruct Hcase as (_ & _ & g' & Hg' & Hp & _).
        exists g'. split; [exact Hg'|]. rewrite Hp.
        unfold granted, remainingCap. lia.
Qed.

Lemma creditTip_grants_witness :
  getGiveaway exampleState "general" = Some exampleGiveaway /\
  isActive exampleGiveaway = true /\
  tipEntryFee exampleGiveaway <> 0 /\
  0 <= getOr0 (tipEntries exampleGiveaway) "alice" /\
  tipEntryCap exampleGiveaway <= 2 ^ 53 /\
  exists st' r,
    creditTip exampleState exampleGiveaway "general" "alice" 15000 = Some (st', r) /\
    entriesGranted r = 10 /\
    exists g', getGiveaway st' "general" = Some g' /\ getOr0 (tipEntries g') "alice" = 10.
Proof.
  assert (Hfee : tipEntryFee exampleGiveaway <> 0) by (simpl; discriminate).
  assert (Hcount : 0 <= getOr0 (tipEntries exampleGiveaway) "alice")
    by (vm_compute; discriminate).
  assert (Hcap : tipEntryCap exampleGiveaway <= 2 ^ 53)
    by (vm_compute; discriminate).
  split; [reflexivity|]. split; [reflexivity|]. split; [exact Hfee|].
  split; [exact Hcount|]. split; [exact Hcap|].
  destruct (creditTip_grants exampleState exampleGiveaway "general" "alice" 15000
              eq_refl eq_refl Hfee Hcount Hcap)
    as (_ & _ & st' & r & Hrun & _ & _ & _ & Hscenario).
  exists st', r. split; [exact Hrun|].
  exact (Hscenario eq_refl eq_refl eq_refl).
Defined.

(** ** Inactive giveaways *)

(** C8. On a giveaway with [isActive = false] the two crediting functions
    and the two handlers that call them leave the whole state as it is,
    so no key is added and no count changes, and the tip credit is 0. *)
Theorem inactive_giveaway_unchanged st ch g :
  getGiveaway st ch = Some g -> isActive g = false ->
  (forall userId count, addReactionEntry st ch userId count = st) /\
  (forall userId count, addTipEntry st ch userId count = (st, 0)) /\
  (forall now event, re_channelId event = ch -> onReaction st now event = st) /\
  (forall botId now event, te_channelId event = ch ->
     exists r, onTip st botId now event = Some (st, r) /\ entriesGranted r = 0).
Proof.
  intros Hg Ha. repeat split.
  - intros userId count. unfold addReactionEntry. now rewrite Hg, Ha.
  - intros userId count. now apply addTipEntry_inactive with g.
  - intros now event <-. unfold onReaction.
    destruct (negb (re_reaction event =? giftEmoji)%string); auto.
    now rewrite Hg, Ha.
  - intros botId now event <-. unfold onTip. exists TipIgnored.
    destruct (negb (te_receiverAddress event =? botId)%string); auto.
    now rewrite Hg, Ha.
Qed.

(** ** Changing the cap *)

Lemma runTips_effect botId events :
  forall st ch g, getGiveaway st ch = Some g ->
  exists g',
    getGiveaway (runTips botId st events) ch = Some g' /\
    tipEntryCap g' = tipEntryCap g /\
    forall p, tipEntryCap g <= getOr0 (tipEntries g) p ->
              getOr0 (tipEntries g') p = getOr0 (tipEntries g) p.
Proof.
  unfold runTips. induction events as [|e events IH]; intros st ch g Hg; simpl.
  - exists g. auto.
  - destruct (tipStep_effect botId st e ch g Hg) as (g1 & Hg1 & Hcap & _ & _ & _ & Hq).
    destruct (IH _ ch g1 Hg1) as (g2 & Hg2 & Hcap2 & Hq2).
    exists g2. split; [exact Hg2|]. split; [congruence|].
    intros p Hp.
    assert (H1 : getOr0 (tipEntries g1) p = getOr0 (tipEntries g) p)
      by (destruct (Hq p) as [?|(_ & _ & ?)]; [assumption | lia]).
    rewrite <- H1. apply Hq2. lia.
Qed.

(** A user at or over the cap is credited nothing. *)
Lemma creditTip_at_cap st g ch p amount st' r :
  getGiveaway st ch = Some g ->
  tipEntryCap g <= getOr0 (tipEntries g) p ->
  creditTip st g ch p amount = Some (st', r) ->
  entriesGranted r = 0 /\ st' = st.
Proof.
  intros Hg Hcap. unfold creditTip.
  destruct (tipEntryFee g =? 0); [discriminate|].
  destruct (_ <? 1); [intros [= <- <-]; auto|].
  unfold addTipEntry. rewrite Hg.
  destruct (negb (isActive g)); [intros [= <- <-]; auto|].
  destruct (Z.leb_spec (tipEntryCap g - getOr0 (tipEntries g) p) 0); [|lia].
  intros [= <- <-]; auto.
Qed.

(** C10. [set-cap] changes nothing of the giveaway but [tipEntryCap]:
    both entry maps stay as they are.  When the new cap is below a
    participant's stored tip count, the count is kept (it then exceeds the
    cap), and after any further tips the count is still the same and a tip
    of that participant is credited 0 and changes nothing. *)
Theorem setCap_changes_only_cap st ch capArg g :
  getGiveaway st ch = Some g ->
  let st1 := fst (giveawaySetCap st ch capArg) in
  (exists g1,
     getGiveaway st1 ch = Some g1 /\
     reactionEntries g1 = reactionEntries g /\
     tipEntries g1 = tipEntries g /\
     g1 = withTipEntryCap g (tipEntryCap g1) /\
     (forall ch', ch' <> ch -> getGiveaway st1 ch' = getGiveaway st ch') /\
     ethPriceUsd st1 = ethPriceUsd st) /\
  (forall cap p,
     capArg = ArgNum cap -> 0 < cap -> isActive g = true ->
     cap < getOr0 (tipEntries g) p ->
     forall botId events,
       let st2 := runTips botId st1 events in
       exists g2,
         getGiveaway st2 ch = Some g2 /\
         tipEntryCap g2 = cap /\
         getOr0 (tipEntries g2) p = getOr0 (tipEntries g) p /\
         tipEntryCap g2 < getOr0 (tipEntries g2) p /\
         forall amount st3 r,
           creditTip st2 g2 ch p amount = Some (st3, r) ->
           entriesGranted r = 0 /\ st3 = st2).
Proof.
  intros Hg st1.
  assert (Hsame : exists g1,
     getGiveaway st ch = Some g1 /\
     reactionEntries g1 = reactionEntries g /\
     tipEntries g1 = tipEntries g /\
     g1 = withTipEntryCap g (tipEntryCap g1) /\
     (forall ch', ch' <> ch -> getGiveaway st ch' = getGiveaway st ch') /\
     ethPriceUsd st = ethPriceUsd st).
  { exists g. repeat split; auto. now destruct g. }
  split.
  - subst st1. unfold giveawaySetCap.
    destruct capArg as [| |cap]; [exact Hsame | exact Hsame |].
    destruct (cap <=? 0); [exact Hsame|].
    rewrite Hg.
    destruct (negb (isActive g)); [exact Hsame|]. simpl.
    eexists. split; [apply getGiveaway_put_same|]. simpl.
    repeat split; auto.
    intros ch' Hne. apply getGiveaway_put_other. congruence.
  - intros cap p -> Hpos Ha Hlow botId events st2.
    assert (Hst1 : st1 = putGiveaway st ch (withTipEntryCap g cap)).
    { subst st1. unfold giveawaySetCap.
      destruct (Z.leb_spec cap 0); [lia|]. now rewrite Hg, Ha. }
    assert (Hg1 : getGiveaway st1 ch = Some (withTipEntryCap g cap))
      by (rewrite Hst1; apply getGiveaway_put_same).
    destruct (runTips_effect botId events st1 ch _ Hg1) as (g2 & Hg2 & Hcap2 & Hq).
    simpl in Hcap2, Hq.
    assert (Hp : getOr0 (tipEntries g2) p = getOr0 (tipEntries g) p)
      by (apply Hq; lia).
    exists g2. fold st2 in Hg2. repeat split; auto; try lia.
    + eapply creditTip_at_cap; eauto. lia.
    + eapply creditTip_at_cap; eauto. lia.
Qed.

Lemma setCap_changes_only_cap_witness :
  getGiveaway exampleTipped "general" = Some exampleTippedGiveaway /\
  forall botId events,
    exists g2,
      getGiveaway
        (runTips botId (fst (giveawaySetCap exampleTipped "general" (ArgNum 5))) events)
        "general" = Some g2 /\
      tipEntryCap g2 = 5 /\
      getOr0 (tipEntries g2) "alice" = 10.
Proof.
  split; [reflexivity|].
  intros botId events.
  destruct (setCap_changes_only_cap exampleTipped "general" (ArgNum 5)
              exampleTippedGiveaway eq_refl) as [_ Hlow].
  destruct (Hlow 5 "alice"%string eq_refl eq_refl eq_refl eq_refl botId events)
    as (g2 & Hg2 & Hcap & Hcount & _).
  exists g2. auto.
Defined.

Lemma inactive_giveaway_unchanged_witness :
  getGiveaway exampleExpired "general" = Some (withIsActive exampleTippedGiveaway false) /\
  isActive (withIsActive exampleTippedGiveaway false) = false /\
  addReactionEntry exampleExpired "general" "carol" 1 = exampleExpired /\
  addTipEntry exampleExpired "general" "bob" 3 = (exampleExpired, 0).
Proof.
  split; [reflexivity|]. split; [reflexivity|].
  destruct (inactive_giveaway_unchanged exampleExpired "general"
              (withIsActive exampleTippedGiveaway false) eq_refl eq_refl)
    as (Hreact & Htip & _).
  split; [apply Hreact | apply Htip].
Defined.

(** ** Numbers: rounding to a double, the text of a number *)

Lemma roundHalfEven_near y :
  (Qabs (inject_Z (roundHalfEven y) - y) <= 1 # 2)%Q.
Proof.
  unfold roundHalfEven.
  pose proof (Qfloor_le y) as Hlo. pose proof (Qlt_floor y) as Hhi.
  rewrite inject_Z_plus in Hhi. change (inject_Z 1) with 1%Q in Hhi.
  apply Qabs_Qle_condition.
  destruct (Qcompare_spec (y - inject_Z (Qfloor y)) (1 # 2)) as [E|E|E].
  - destruct (Z.even (Qfloor y)).
    + lra.
    + rewrite inject_Z_plus. change (inject_Z 1) with 1%Q. lra.
  - lra.
  - rewrite inject_Z_plus. change (inject_Z 1) with 1%Q. lra.
Qed.

Lemma roundHalfEven_ge y : (0 <= y)%Q -> 0 <= roundHalfEven y.
Proof.
  intros Hy. unfold roundHalfEven.
  assert (H0 : 0 <= Qfloor y).
  { apply Qfloor_resp_le in Hy. exact Hy. }
  destruct (_ ?= _)%Q; [destruct (Z.even _)| |]; lia.
Qed.

Lemma pow2_pos e : (0 < 2 ^ e)%Q.
Proof. apply Qpower_0_lt. reflexivity. Qed.

Lemma pow10_pos e : (0 < 10 ^ e)%Q.
Proof. apply Qpower_0_lt. reflexivity. Qed.

Lemma ilog2_lower a : (0 < a)%Q -> (2 ^ ilog2 a <= a)%Q.
Proof.
  intros Ha. unfold ilog2.
  set (k := Z.log2 (Qnum a) - Z.log2 (Z.pos (Qden a))).
  destruct (Qle_bool (2 ^ k) a) eqn:Hk; [now apply Qle_bool_iff|].
  destruct a as [n d]. cbn [Qnum Qden] in k.
  assert (Hn : 0 < n) by (unfold Qlt in Ha; simpl in Ha; lia).
  pose proof (Z.log2_spec n Hn) as [Hn1 _].
  pose proof (Z.log2_spec (Z.pos d) (Pos2Z.is_pos d)) as [_ Hd2].
  pose proof (Z.log2_nonneg n) as Hln.
  pose proof (Z.log2_nonneg (Z.pos d)) as Hld.
  replace (k - 1) with (Z.log2 n - Z.succ (Z.log2 (Z.pos d))) by (unfold k; lia).
  rewrite Qpower_minus by discriminate.
  change 2%Q with (inject_Z 2).
  rewrite <- !Zpower_Qpower by lia.
  apply Qle_shift_div_r.
  - rewrite <- (Zlt_Qlt 0). apply Z.pow_pos_nonneg; lia.
  - unfold Qle, Qmult, inject_Z. cbn [Qnum Qden].
    rewrite Z.mul_1_r, Pos.mul_1_r.
    set (p := 2 ^ Z.log2 n) in *. set (q := 2 ^ Z.succ (Z.log2 (Z.pos d))) in *.
    assert (0 < p) by (apply Z.pow_pos_nonneg; lia).
    nia.
Qed.

Lemma nearestDouble_near a d :
  (0 < a)%Q -> nearestDouble a = Some d ->
  (Qabs (d - a) <= halfUlp a)%Q /\ (0 <= d)%Q.
Proof.
  intros Ha. unfold nearestDouble.
  set (ue := Z.max (ilog2 a - 52) (-1074)).
  set (ulp := (2 ^ ue)%Q).
  set (m := roundHalfEven (a / ulp)).
  destruct (Qle_bool _ _); [discriminate|]. intros [= <-].
  assert (Hulp : (0 < ulp)%Q) by apply pow2_pos.
  assert (Hq : (0 <= a / ulp)%Q).
  { apply Qle_shift_div_l; [assumption|]. lra. }
  pose proof (roundHalfEven_near (a / ulp)) as Hnear. fold m in Hnear.
  pose proof (roundHalfEven_ge (a / ulp) Hq) as Hm. fold m in Hm.
  split.
  - assert (Hhalf : (ulp * (1 # 2) <= halfUlp a)%Q).
    { unfold halfUlp, ulp.
      assert (E : (2 ^ ue * (1 # 2) == 2 ^ (ue - 1))%Q).
      { rewrite Qpower_minus by discriminate. reflexivity. }
      rewrite E.
      pose proof (ilog2_lower a Ha) as Hlog.
      pose proof (pow2_pos (-53)) as H53. pose proof (pow2_pos (-1075)) as H1075.
      destruct (Z.max_spec (ilog2 a - 52) (-1074)) as [[_ Hmax]|[_ Hmax]];
        fold ue in Hmax; rewrite Hmax.
      - change (-1074 - 1)%Z with (-1075)%Z.
        assert (0 <= a * 2 ^ (-53))%Q by (apply Qmult_le_0_compat; lra).
        lra.
      - replace (ilog2 a - 52 - 1)%Z with (ilog2 a + -53)%Z by lia.
        rewrite Qpower_plus by discriminate.
        assert (2 ^ ilog2 a * 2 ^ (-53) <= a * 2 ^ (-53))%Q
          by (apply Qmult_le_r; assumption).
        lra. }
    assert (E : (inject_Z m * ulp - a == ulp * (inject_Z m - a / ulp))%Q).
    { field. lra. }
    rewrite E, Qabs_Qmult, (Qabs_pos ulp) by lra.
    apply Qle_trans with (ulp * (1 # 2))%Q; [|exact Hhalf].
    apply Qmult_le_l; assumption.
  - apply Qmult_le_0_compat; [|lra].
    rewrite <- (Zle_Qle 0). exact Hm.
Qed.

Lemma number_near x d :
  number x = Some d ->
  (Qabs (d - x) <= halfUlp (Qabs x))%Q /\
  ((0 <= x)%Q -> (0 <= d)%Q) /\ ((x <= 0)%Q -> (d <= 0)%Q).
Proof.
  unfold number.
  assert (Hpos : (0 <= halfUlp (Qabs x))%Q).
  { unfold halfUlp. pose proof (Qabs_nonneg x).
    pose proof (pow2_pos (-53)). pose proof (pow2_pos (-1075)).
    assert (0 <= Qabs x * 2 ^ (-53))%Q by (apply Qmult_le_0_compat; lra). lra. }
  destruct (Qeq_bool x 0) eqn:Hz.
  - apply Qeq_bool_iff in Hz. intros [= <-].
    split; [|split; intros; lra].
    assert (E : (0 - x == 0)%Q) by lra. rewrite E. exact Hpos.
  - apply Qeq_bool_neq in Hz.
    destruct (nearestDouble (Qabs x)) as [m|] eqn:Hm; [|discriminate].
    assert (Ha : (0 < Qabs x)%Q).
    { pose proof (Qabs_nonneg x). destruct (Qlt_le_dec 0 (Qabs x)); auto.
      exfalso. apply Hz. apply Qabs_Qle_condition in q. lra. }
    destruct (nearestDouble_near _ _ Ha Hm) as [Hnear Hm0].
    cbn [option_map]. intros [= <-].
    destruct (Qle_bool 0 x) eqn:Hs.
    + apply Qle_bool_iff in Hs. rewrite (Qabs_pos x Hs) in Hnear at 1.
      split; [exact Hnear|]. split; [auto|]. intros. exfalso. apply Hz. lra.
    + assert (Hneg : (x < 0)%Q).
      { apply Qnot_le_lt. intros H. apply Qle_bool_iff in H. congruence. }
      assert (Hx : (x <= 0)%Q) by lra.
      rewrite (Qabs_neg x Hx) in Hnear at 1.
      split; [|split; intros; lra].
      assert (E : (- m - x == - (m - - x))%Q) by ring.
      rewrite E, Qabs_opp. exact Hnear.
Qed.

Lemma fold_closer_In d k cs : forall c, In (fold_left (closer d k) cs c) (c :: cs).
Proof.
  induction cs as [|c' cs IH]; intros c; simpl; [auto|].
  destruct (IH (closer d k c c')) as [H|H]; [|auto].
  rewrite <- H. unfold closer.
  destruct (_ ?= _)%Q; [destruct (Z.even _)| |]; auto.
Qed.

Lemma shortestFrom_candidate fuel d n0 : forall k s n k',
  shortestFrom fuel d n0 k = Some (s, n, k') ->
  k <= k' /\ In (s, n) (candidates d n0 k').
Proof.
  induction fuel as [|fuel IH]; intros k s n k'; simpl; [discriminate|].
  destruct (candidates d n0 k) as [|c cs] eqn:Hc.
  - intros H. apply IH in H. split; [lia | tauto].
  - intros [= <- <- <-]. split; [lia|].
    rewrite Hc. rewrite <- surjective_pairing. apply fold_closer_In.
Qed.

Lemma shortestDecimal_spec d s n k :
  shortestDecimal d = Some (s, n, k) ->
  1 <= k /\ 10 ^ (k - 1) <= s /\ roundTrips d s n k = true.
Proof.
  unfold shortestDecimal. intros H.
  apply shortestFrom_candidate in H as [Hk Hin].
  unfold candidates in Hin. apply filter_In in Hin as [_ Hf].
  cbn [fst snd] in Hf.
  apply andb_true_iff in Hf as [Hf Hrt]. apply andb_true_iff in Hf as [Hlo _].
  apply Z.leb_le in Hlo. auto.
Qed.

Lemma decimalOf_lower s n k :
  1 <= k -> 10 ^ (k - 1) <= s -> -6 < n ->
  (1 # 1000000 <= decimalOf s n k)%Q.
Proof.
  intros Hk Hs Hn. unfold decimalOf.
  assert (H1 : (inject_Z (10 ^ (k - 1)) * 10 ^ (n - k) <= inject_Z s * 10 ^ (n - k))%Q).
  { apply Qmult_le_r; [apply pow10_pos|]. now rewrite <- Zle_Qle. }
  rewrite Zpower_Qpower in H1 by lia. change (inject_Z 10) with 10%Q in H1.
  rewrite <- Qpower_plus in H1 by discriminate.
  replace (k - 1 + (n - k)) with (n - 1) in H1 by lia.
  assert (H2 : (10 ^ (-6) <= 10 ^ (n - 1))%Q)
    by (apply Qpower_le_compat_l; [lia | discriminate]).
  assert (E : (10 ^ (-6) == 1 # 1000000)%Q) by reflexivity.
  rewrite <- E. lra.
Qed.

Lemma toString_decimal x t :
  toString x = DecimalText t ->
  ((x == 0)%Q /\ t = 0%Q) \/
  (exists s n k,
     ~ (x == 0)%Q /\ -6 < n <= 21 /\ 1 <= k /\ 10 ^ (k - 1) <= s /\
     roundTrips (Qabs x) s n k = true /\
     t = if Qle_bool 0 x then decimalOf s n k else (- decimalOf s n k)%Q).
Proof.
  unfold toString. destruct (Qeq_bool x 0) eqn:Hz.
  - apply Qeq_bool_iff in Hz. intros [= <-]. auto.
  - apply Qeq_bool_neq in Hz.
    destruct (shortestDecimal (Qabs x)) as [[[s n] k]|] eqn:Hs; [|discriminate].
    destruct (Z.ltb_spec (-6) n) as [Hlo|]; [|discriminate].
    destruct (Z.leb_spec n 21) as [Hhi|]; [|discriminate].
    cbn [andb]. intros [= <-].
    apply shortestDecimal_spec in Hs as (Hk & Hs & Hrt).
    right. exists s, n, k. repeat split; auto.
Qed.

Lemma Qabs_opp_eq x : Qabs (- x) = Qabs x.
Proof. destruct x as [n d]. unfold Qabs, Qopp. cbn [Qnum Qden]. now rewrite Z.abs_opp. Qed.

Lemma Qopp_opp_eq x : (- - x)%Q = x.
Proof. destruct x as [n d]. unfold Qopp. cbn [Qnum Qden]. now rewrite Z.opp_involutive. Qed.

Lemma Qdiv_opp_eq x y : (- x / y)%Q = (- (x / y))%Q.
Proof.
  destruct x as [n d]. unfold Qdiv, Qmult, Qopp. cbn [Qnum Qden].
  now rewrite Z.mul_opp_l.
Qed.

Lemma Qle_bool_opp x : ~ (x == 0)%Q -> Qle_bool 0 (- x) = negb (Qle_bool 0 x).
Proof.
  intros Hz.
  destruct (Qle_bool 0 x) eqn:H1; destruct (Qle_bool 0 (- x)) eqn:H2; auto.
  - apply Qle_bool_iff in H1, H2. exfalso. apply Hz. lra.
  - exfalso.
    assert (Ha : ~ (0 <= x)%Q) by (intros H; apply Qle_bool_iff in H; congruence).
    assert (Hb : ~ (0 <= - x)%Q) by (intros H; apply Qle_bool_iff in H; congruence).
    lra.
Qed.

Lemma Qeq_bool_opp x : Qeq_bool (- x) 0 = Qeq_bool x 0.
Proof.
  destruct (Qeq_bool x 0) eqn:H1; destruct (Qeq_bool (- x) 0) eqn:H2; auto.
  - apply Qeq_bool_iff in H1. apply Qeq_bool_neq in H2. exfalso. apply H2. lra.
  - apply Qeq_bool_iff in H2. apply Qeq_bool_neq in H1. exfalso. apply H1. lra.
Qed.

Lemma number_opp x : number (- x) = option_map Qopp (number x).
Proof.
  unfold number. rewrite Qeq_bool_opp, Qabs_opp_eq.
  destruct (Qeq_bool x 0) eqn:Hz; [reflexivity|].
  apply Qeq_bool_neq in Hz. rewrite (Qle_bool_opp x Hz).
  destruct (nearestDouble (Qabs x)) as [d|]; [|reflexivity].
  cbn [option_map]. destruct (Qle_bool 0 x); cbn [negb]; [reflexivity|].
  now rewrite Qopp_opp_eq.
Qed.

Lemma quotient_opp a b : quotient (- a) b = option_map Qopp (quotient a b).
Proof.
  unfold quotient. rewrite number_opp.
  destruct (number a) as [x|]; cbn [option_map]; [|reflexivity].
  destruct (number b) as [y|]; [|reflexivity].
  destruct (Qeq_bool y 0); [reflexivity|].
  rewrite Qdiv_opp_eq. apply number_opp.
Qed.

Lemma toString_opp x : toString (- x) = negateText (toString x).
Proof.
  unfold toString. rewrite Qeq_bool_opp, Qabs_opp_eq.
  destruct (Qeq_bool x 0) eqn:Hz; [reflexivity|].
  apply Qeq_bool_neq in Hz. rewrite (Qle_bool_opp x Hz).
  destruct (shortestDecimal (Qabs x)) as [[[s n] k]|]; [|reflexivity].
  destruct ((-6 <? n) && (n <=? 21)); [|reflexivity].
  destruct (Qle_bool 0 x); cbn [negb negateText]; [reflexivity|].
  now rewrite Qopp_opp_eq.
Qed.

Lemma parseEther_opp t : parseEther (- t) = - parseEther t.
Proof.
  unfold parseEther. rewrite Qabs_opp_eq.
  destruct t as [n d]. cbn [Qopp Qnum]. rewrite Z.sgn_opp. lia.
Qed.

Lemma parseEther_near t :
  (Qabs (inject_Z (parseEther t) - t * inject_Z (10 ^ 18)) <= 1 # 2)%Q.
Proof.
  unfold parseEther.
  set (unit := inject_Z (10 ^ 18)).
  set (scaled := (Qabs t * unit + (1 # 2))%Q).
  pose proof (Qfloor_le scaled) as Hlo. pose proof (Qlt_floor scaled) as Hhi.
  rewrite inject_Z_plus in Hhi. change (inject_Z 1) with 1%Q in Hhi.
  assert (Hscaled : (scaled == Qabs t * unit + (1 # 2))%Q) by reflexivity.
  clearbody scaled.
  apply Qabs_Qle_condition.
  destruct (Qlt_le_dec 0 t) as [Hpos|Hneg].
  - assert (Hs : Z.sgn (Qnum t) = 1).
    { destruct t as [n d]. unfold Qlt in Hpos. cbn in Hpos. cbn [Qnum]. lia. }
    rewrite Hs, Z.mul_1_l.
    assert (E : (Qabs t * unit == t * unit)%Q) by (rewrite Qabs_pos by lra; reflexivity).
    lra.
  - destruct (Qeq_dec t 0) as [Hz|Hnz].
    + assert (Hs : Z.sgn (Qnum t) = 0).
      { destruct t as [n d]. unfold Qeq in Hz. cbn in Hz. cbn [Qnum]. lia. }
      rewrite Hs, Z.mul_0_l.
      assert (E : (t * unit == 0)%Q) by (rewrite Hz; ring).
      change (inject_Z 0) with 0%Q. lra.
    + assert (Hs : Z.sgn (Qnum t) = -1).
      { destruct t as [n d]. unfold Qle in Hneg. unfold Qeq in Hnz.
        cbn in Hneg, Hnz. cbn [Qnum]. lia. }
      rewrite Hs. replace (-1 * Qfloor scaled) with (- Qfloor scaled) by lia.
      rewrite inject_Z_opp.
      assert (E : (Qabs t * unit == - (t * unit))%Q)
        by (rewrite Qabs_neg by lra; ring).
      lra.
Qed.

Lemma Qabs_eq_nonneg x : (0 <= x)%Q -> Qabs x = x.
Proof.
  destruct x as [n d]. unfold Qle, Qabs. cbn [Qnum Qden]. intros H.
  rewrite Z.abs_eq by lia. reflexivity.
Qed.


Lemma pow2_le_one e : e <= 0 -> (2 ^ e <= 1)%Q.
Proof.
  intros He. change 1%Q with (2 ^ 0)%Q.
  apply Qpower_le_compat_l; [assumption | discriminate].
Qed.



(** ** The weighted pool *)

Lemma existsb_eqb_In x s : existsb (String.eqb x) s = true <-> In x s.
Proof.
  rewrite existsb_exists. split.
  - intros (y & Hy & E). apply String.eqb_eq in E. now subst.
  - intros H. exists x. split; [assumption | apply String.eqb_refl].
Qed.

Lemma setAdd_In s x y : In y (setAdd s x) <-> In y s \/ y = x.
Proof.
  unfold setAdd. destruct (existsb (String.eqb x) s) eqn:E.
  - apply existsb_eqb_In in E. split; [auto | intros [?| ->]; auto].
  - rewrite in_app_iff. simpl. intuition auto.
Qed.


Lemma fold_setAdd_In l : forall s y,
  In y (fold_left setAdd l s) <-> In y s \/ In y l.
Proof.
  induction l as [|x l IH]; intros s y; simpl.
  - tauto.
  - rewrite IH, setAdd_In. intuition auto.
Qed.


Lemma newSet_In l y : In y (newSet l) <-> In y l.
Proof. unfold newSet. rewrite fold_setAdd_In. simpl. tauto. Qed.


(** The participants are the keys of either map, each once. *)
Lemma allUsers_In g p :
  In p (allUsers g) <->
  In p (JsMap.keys (reactionEntries g)) \/ In p (JsMap.keys (tipEntries g)).
Proof. unfold allUsers. now rewrite newSet_In, in_app_iff. Qed.


Section Pool.
Variable weight : string -> nat.



Lemma poolOf_In users w :
  In w (poolOf weight users) <-> In w users /\ (0 < weight w)%nat.
Proof.
  unfold poolOf. rewrite in_flat_map. split.
  - intros (u & Hu & Hw). apply repeat_spec in Hw as Heq. subst w.
    split; auto. destruct (weight u); [contradiction | lia].
  - intros [Hu Hw]. exists w. split; auto.
    destruct (weight w); [lia | now left].
Qed.

End Pool.

Lemma weightedEntries_poolOf g :
  weightedEntries g =
  poolOf (fun userId => Z.to_nat (getTotalEntries g userId)) (allUsers g).
Proof. reflexivity. Qed.


(** The handler's [reduce] is the sum. *)
Lemma fold_left_sumZ (f : string -> Z) users : forall acc,
  fold_left (fun sum userId => sum + f userId) users acc = acc + sumZ (map f users).
Proof.
  induction users as [|u users IH]; intros acc; simpl; [lia|].
  rewrite IH. lia.
Qed.


(** ** The draw *)




Lemma weightedEntries_In g w :
  In w (weightedEntries g) <-> In w (allUsers g) /\ 0 < getTotalEntries g w.
Proof.
  rewrite weightedEntries_poolOf, poolOf_In. split; intros [? ?]; split; auto; lia.
Qed.

Lemma ledgerPositive_total g p :
  ledgerPositive g -> In p (allUsers g) -> 1 <= getTotalEntries g p.
Proof.
  intros [Hr Ht] Hin. apply allUsers_In in Hin. unfold getTotalEntries.
  pose proof (countsPositive_getOr0 _ p Hr).
  pose proof (countsPositive_getOr0 _ p Ht).
  destruct Hin as [Hin|Hin]; apply JsMapFacts.In_keys_get in Hin as [n Hn];
    pose proof Hn as Hn'; [apply Hr in Hn | apply Ht in Hn];
    unfold getOr0 in *; rewrite Hn' in *; lia.
Qed.





(** ** The ledger invariant is kept by the handlers *)

Lemma tipStep_positive botId st timed :
  registryPositive st -> registryPositive (tipStep botId st timed).
Proof.
  intros Hst ch g' Hg'.
  destruct (getGiveaway st ch) as [g|] eqn:Hg.
  - destruct (tipStep_effect botId st timed ch g Hg)
      as (g1 & Hg1 & _ & _ & Hre & Hpos & _).
    rewrite Hg' in Hg1. injection Hg1 as <-.
    destruct (Hst ch g Hg) as [Hr Ht]. split; [now rewrite Hre | auto].
  - rewrite (tipStep_no_new botId st timed ch Hg) in Hg'. discriminate.
Qed.

Lemma onReaction_positive st now event :
  registryPositive st -> registryPositive (onReaction st now event).
Proof.
  intros Hst. unfold onReaction.
  destruct (negb (re_reaction event =? giftEmoji)%string); auto.
  destruct (getGiveaway st (re_channelId event)) as [g0|] eqn:Hg0; auto.
  destruct (negb (isActive g0)) eqn:Ha; auto.
  destruct (negb (isAnnouncement g0 (re_messageId event))); auto.
  destruct (Hst _ _ Hg0) as [Hr Ht].
  destruct (endTime g0 <? now).
  - intros ch g. rewrite getGiveaway_put.
    destruct (String.eqb (re_channelId event) ch); [|apply Hst].
    intros [= <-]. split; assumption.
  - unfold addReactionEntry. rewrite Hg0, Ha.
    intros ch g. rewrite getGiveaway_put.
    destruct (String.eqb (re_channelId event) ch); [|apply Hst].
    intros [= <-]. split; simpl; auto.
    apply countsPositive_set; auto.
    pose proof (countsPositive_getOr0 _ (re_userId event) Hr). lia.
Qed.

Lemma createGiveaway_positive st now eventId ch prizeText durationStr fee cap st' r :
  registryPositive st ->
  createGiveaway st now eventId ch prizeText durationStr fee cap = Some (st', r) ->
  registryPositive st'.
Proof.
  intros Hst. unfold createGiveaway.
  destruct (matchDuration durationStr) as [[ds u]|]; [|now intros [= <- _]].
  destruct (match getGiveaway st ch with Some e => isActive e | None => false end);
    [now intros [= <- _]|].
  destruct (usdToWei st fee); [|discriminate].
  intros [= <- _] ch' g. rewrite getGiveaway_put.
  destruct (String.eqb ch ch'); [|apply Hst].
  intros [= <-]. split; intros p n; discriminate.
Qed.

(** ** Duration strings and creation *)

Lemma isDigit_decimalDigit c : isDigit c = true <-> decimalDigit c.
Proof.
  unfold decimalDigit. split.
  - destruct c as [[] [] [] [] [] [] [] []]; vm_compute; intros H;
      solve [discriminate H | auto 12].
  - intros H. simpl in H.
    repeat (destruct H as [<-|H]; [reflexivity|]). contradiction.
Qed.

Lemma isUnit_unitLetter c : isUnit c = true <-> unitLetter c.
Proof.
  unfold isUnit, unitLetter. rewrite existsb_exists. split.
  - intros (y & Hy & E). apply Ascii.eqb_eq in E. subst y. simpl in *. tauto.
  - intros H. exists c. split; [simpl in *; tauto | apply Ascii.eqb_refl].
Qed.

Lemma unitLetter_not_digit u : unitLetter u -> isDigit u = false.
Proof.
  intros H. unfold unitLetter in H. simpl in H.
  repeat (destruct H as [<-|H]; [reflexivity|]). contradiction.
Qed.

Lemma allDigits_cons c l :
  Forall decimalDigit (c :: l) <-> isDigit c = true /\ Forall decimalDigit l.
Proof.
  rewrite isDigit_decimalDigit. split.
  - intros H. inversion H. auto.
  - intros [? ?]. now constructor.
Qed.

(** [spanDigits] splits a string into digits and a rest that starts with no
    digit. *)
Lemma spanDigits_split s : forall ds rest,
  spanDigits s = (ds, rest) ->
  s = (ds ++ rest)%string /\
  Forall decimalDigit (list_ascii_of_string ds) /\
  match rest with
  | EmptyString => True
  | String c _ => isDigit c = false
  end.
Proof.
  induction s as [|c s IH]; intros ds rest; simpl.
  - intros [= <- <-]. repeat split; constructor.
  - destruct (isDigit c) eqn:Hc.
    + destruct (spanDigits s) as [ds' rest'].
      intros [= <- <-]. destruct (IH ds' rest' eq_refl) as (-> & Hds & Hrest).
      split; [reflexivity|]. split; [|assumption].
      simpl. now apply allDigits_cons.
    + intros [= <- <-]. simpl. rewrite Hc. repeat split; constructor.
Qed.

Lemma spanDigits_digits_then ds rest :
  Forall decimalDigit (list_ascii_of_string ds) ->
  match rest with
  | EmptyString => True
  | String c _ => isDigit c = false
  end ->
  spanDigits (ds ++ rest) = (ds, rest).
Proof.
  induction ds as [|c ds IH]; simpl; intros Hds Hrest.
  - destruct rest as [|c rest]; simpl; [reflexivity | now rewrite Hrest].
  - apply allDigits_cons in Hds as [Hc Hds].
    now rewrite Hc, (IH Hds Hrest).
Qed.

(** The regular expression matches exactly the strings of the grammar, and
    its groups are the digits and the unit letter. *)
Lemma matchDuration_Some s ds u :
  matchDuration s = Some (ds, u) <->
  s = (ds ++ String u EmptyString)%string /\ ds <> EmptyString /\
  Forall decimalDigit (list_ascii_of_string ds) /\ unitLetter u.
Proof.
  unfold matchDuration. split.
  - destruct (spanDigits s) as [ds' rest] eqn:Hs.
    apply spanDigits_split in Hs as (-> & Hds & _).
    destruct ds' as [|c ds']; [discriminate|].
    destruct rest as [|u' [|]]; try discriminate.
    destruct (isUnit u') eqn:Hu; [|discriminate].
    intros [= <- <-]. apply isUnit_unitLetter in Hu.
    repeat split; auto. discriminate.
  - intros (-> & Hne & Hds & Hu).
    rewrite spanDigits_digits_then; auto using unitLetter_not_digit.
    destruct ds as [|c ds]; [contradiction|].
    apply isUnit_unitLetter in Hu. now rewrite Hu.
Qed.

Lemma matchDuration_grammar s :
  DurationGrammar s <-> exists ds u, matchDuration s = Some (ds, u).
Proof.
  unfold DurationGrammar. split; intros (ds & u & H); exists ds, u;
    now apply matchDuration_Some.
Qed.

Lemma matchDuration_None s : matchDuration s = None <-> ~ DurationGrammar s.
Proof.
  rewrite matchDuration_grammar. split.
  - intros H (ds & u & H'). congruence.
  - intros H. destruct (matchDuration s) as [[ds u]|]; auto.
    exfalso. apply H. eauto.
Qed.

Lemma parseInt_numeralValue ds : parseInt ds = numeralValue ds.
Proof.
  unfold parseInt, numeralValue.
  rewrite <- fold_left_rev_right.
  induction (rev (list_ascii_of_string ds)) as [|c l IH]; auto.
  cbn [fold_right decimalValue]. rewrite IH. lia.
Qed.

Lemma msOfDuration_unitMillis n u :
  unitLetter u -> msOfDuration n (toLowerCase u) = n * unitMillis u.
Proof.
  intros H. unfold unitLetter in H. simpl in H.
  repeat (destruct H as [<-|H];
          [unfold msOfDuration, unitMillis; simpl; lia|]).
  contradiction.
Qed.

Ltac digits_ok :=
  simpl; repeat (apply Forall_cons; [unfold decimalDigit; simpl; tauto|]);
  apply Forall_nil.

Ltac unit_ok := unfold unitLetter; simpl; tauto.

Lemma createGiveaway_accepts st now eventId ch prizeText fee cap ds u :
  ds <> EmptyString ->
  Forall decimalDigit (list_ascii_of_string ds) -> unitLetter u ->
  (forall existing, getGiveaway st ch = Some existing -> isActive existing = false) ->
  usdToWei st fee <> None ->
  exists st' g,
    createGiveaway st now eventId ch prizeText (ds ++ String u EmptyString) fee cap
      = Some (st', CreateSuccess) /\
    getGiveaway st' ch = Some g /\
    startTime g = now /\
    endTime g = startTime g + numeralValue ds * unitMillis u /\
    isActive g = true /\
    tipEntries g = JsMap.empty /\ reactionEntries g = JsMap.empty /\
    tipEntryCap g = cap.
Proof.
  intros Hne Hds Hu Hfree Hprice. unfold createGiveaway.
  assert (Hm : matchDuration (ds ++ String u EmptyString) = Some (ds, u))
    by (apply matchDuration_Some; auto).
  rewrite Hm.
  assert (Hblocked : match getGiveaway st ch with
                     | Some existing => isActive existing
                     | None => false
                     end = false).
  { destruct (getGiveaway st ch) as [existing|]; auto. }
  rewrite Hblocked.
  destruct (usdToWei st fee) as [wei|]; [|contradiction].
  eexists _, _. split; [reflexivity|].
  split; [apply getGiveaway_put_same|]. simpl.
  rewrite parseInt_numeralValue, msOfDuration_unitMillis by assumption.
  repeat split.
Qed.

Lemma isUnitInline_lower u :
  isUnitInline u = true <-> In u ["m"; "h"; "d"]%char.
Proof.
  unfold isUnitInline. rewrite existsb_exists. split.
  - intros (y & Hy & E). apply Ascii.eqb_eq in E. subst y. simpl in *. tauto.
  - intros H. exists u. split; [simpl in *; tauto | apply Ascii.eqb_refl].
Qed.

Lemma lower_unit_cases u :
  In u ["m"; "h"; "d"]%char <-> unitLetter u /\ toLowerCase u = u.
Proof.
  unfold unitLetter. split.
  - intros H. simpl in H.
    repeat (destruct H as [<-|H]; [split; [simpl; tauto | reflexivity]|]).
    contradiction.
  - intros [H Hl]. simpl in H.
    repeat (destruct H as [<-|H];
            [first [simpl; tauto | vm_compute in Hl; discriminate Hl]|]).
    contradiction.
Qed.

Lemma lower_unit_not_digit u : In u ["m"; "h"; "d"]%char -> isDigit u = false.
Proof.
  intros H. apply unitLetter_not_digit. now apply lower_unit_cases.
Qed.

Lemma matchDurationInline_Some s ds u :
  matchDurationInline s = Some (ds, u) <->
  s = (ds ++ String u EmptyString)%string /\ ds <> EmptyString /\
  Forall decimalDigit (list_ascii_of_string ds) /\ In u ["m"; "h"; "d"]%char.
Proof.
  unfold matchDurationInline. split.
  - destruct (spanDigits s) as [ds' rest] eqn:Hs.
    apply spanDigits_split in Hs as (-> & Hds & _).
    destruct ds' as [|c ds']; [discriminate|].
    destruct rest as [|u' [|]]; try discriminate.
    destruct (isUnitInline u') eqn:Hu; [|discriminate].
    intros [= <- <-]. apply isUnitInline_lower in Hu.
    repeat split; auto. discriminate.
  - intros (-> & Hne & Hds & Hu).
    rewrite spanDigits_digits_then; auto using lower_unit_not_digit.
    destruct ds as [|c ds]; [contradiction|].
    apply isUnitInline_lower in Hu. now rewrite Hu.
Qed.

Lemma matchDurationInline_iff s ds u :
  matchDurationInline s = Some (ds, u) <->
  matchDuration s = Some (ds, u) /\ toLowerCase u = u.
Proof.
  rewrite matchDurationInline_Some, matchDuration_Some, lower_unit_cases. tauto.
Qed.

Lemma matchDurationInline_eq s :
  (forall ds u, matchDuration s = Some (ds, u) -> toLowerCase u = u) ->
  matchDurationInline s = matchDuration s.
Proof.
  intros Hlow.
  destruct (matchDuration s) as [[ds u]|] eqn:Hm.
  - apply matchDurationInline_iff.
    split; [exact Hm | eapply Hlow; first [exact Hm | reflexivity]].
  - destruct (matchDurationInline s) as [[ds u]|] eqn:Hi; auto.
    apply matchDurationInline_iff in Hi as [Hi _]. congruence.
Qed.

Lemma matchDurationInline_grammar s :
  DurationGrammarLower s <-> exists ds u, matchDurationInline s = Some (ds, u).
Proof.
  unfold DurationGrammarLower, lowerUnitLetter.
  split; intros (ds & u & H); exists ds, u; now apply matchDurationInline_Some.
Qed.

Lemma msOfDuration_lower n u :
  lowerUnitLetter u -> msOfDuration n u = n * unitMillis u.
Proof.
  intros H. apply lower_unit_cases in H as [Hu Hl].
  rewrite <- Hl at 1. now apply msOfDuration_unitMillis.
Qed.

(** C7, counterexample.  ["24H"] is one or more digits followed by a unit
    letter in upper case, a string of the grammar read case-insensitively.
    The [createGiveaway] helper accepts it; the inline [create] branch, whose
    regular expression has no [i] flag, answers that the duration is invalid
    and creates nothing. *)
Lemma inline_create_rejects_upper_case :
  DurationGrammar "24H" /\
  giveawayCreateInline initialState 1000 "announcement-1" "general"
    ["100"; "USDC"; "24H"]%string (1 # 2) 10
    = Some (initialState, ReplyInvalidDuration) /\
  exists st',
    createGiveaway initialState 1000 "announcement-1" "general" "100 USDC" "24H"
      (1 # 2) 10 = Some (st', CreateSuccess).
Proof.
  split.
  - exists "24"%string, "H"%char. split; [reflexivity|]. split; [discriminate|].
    split; [digits_ok | unit_ok].
  - split; [vm_compute; reflexivity|].
    eexists. vm_compute. reflexivity.
Qed.

(** C7 (amended).  The [createGiveaway] helper rejects a duration string
    with the invalid-duration error, creating nothing, exactly when the
    string is not one or more decimal digits followed by one of [m], [h],
    [d] in either case; the inline [create] branch does so exactly when the
    string is not one or more decimal digits followed by one of [m], [h],
    [d] in lower case.  An accepted string on a free channel creates a
    giveaway with [startTime = now] and, when [now] is not negative and the
    instant is within the range of [Date],
    [endTime = startTime + count * unit], in either branch; ["24h"] at
    [startTime = T] gives [T + 24 hours], ["2d"] gives [T + 48 hours], and
    ["x"] and ["24"] are rejected.  A channel is free when it has no active
    giveaway and the fee converts to wei. *)
Theorem createGiveaway_duration st now eventId ch prizeText durationStr fee cap :
  let result := createGiveaway st now eventId ch prizeText durationStr fee cap in
  let free :=
    (forall existing, getGiveaway st ch = Some existing -> isActive existing = false) /\
    usdToWei st fee <> None in
  (~ DurationGrammar durationStr -> result = Some (st, CreateInvalidDuration)) /\
  (DurationGrammar durationStr ->
     forall st', result <> Some (st', CreateInvalidDuration)) /\
  (forall rest,
     prizeOfArgs rest <> EmptyString -> durationOfArgs rest = durationStr ->
     durationStr <> EmptyString ->
     (~ DurationGrammarLower durationStr ->
        giveawayCreateInline st now eventId ch rest fee cap
          = Some (st, ReplyInvalidDuration)) /\
     (DurationGrammarLower durationStr ->
        forall st', giveawayCreateInline st now eventId ch rest fee cap
                      <> Some (st', ReplyInvalidDuration))) /\
  (forall ds u,
     durationStr = (ds ++ String u EmptyString)%string -> ds <> EmptyString ->
     Forall decimalDigit (list_ascii_of_string ds) -> unitLetter u -> free ->
     0 <= now -> validTime (now + numeralValue ds * unitMillis u) ->
     (exists st' g,
        result = Some (st', CreateSuccess) /\
        getGiveaway st' ch = Some g /\
        startTime g = now /\
        endTime g = startTime g + numeralValue ds * unitMillis u) /\
     (lowerUnitLetter u ->
      forall rest,
        prizeOfArgs rest <> EmptyString -> durationOfArgs rest = durationStr ->
        exists st' g,
          giveawayCreateInline st now eventId ch rest fee cap
            = Some (st', ReplyStarted) /\
          getGiveaway st' ch = Some g /\
          startTime g = now /\
          endTime g = startTime g + numeralValue ds * unitMillis u)) /\
  (durationStr = "24h"%string -> free ->
     0 <= now -> validTime (now + 24 * 3600000) ->
     exists st' g, result = Some (st', CreateSuccess) /\
       getGiveaway st' ch = Some g /\ endTime g = now + 24 * 3600000) /\
  (durationStr = "2d"%string -> free ->
     0 <= now -> validTime (now + 48 * 3600000) ->
     exists st' g, result = Some (st', CreateSuccess) /\
       getGiveaway st' ch = Some g /\ endTime g = now + 48 * 3600000) /\
  (durationStr = "x"%string \/ durationStr = "24"%string ->
     result = Some (st, CreateInvalidDuration)).
Proof.
  intros result free.
  assert (Hgeneral : forall ds u,
     durationStr = (ds ++ String u EmptyString)%string -> ds <> EmptyString ->
     Forall decimalDigit (list_ascii_of_string ds) -> unitLetter u -> free ->
     exists st' g,
       result = Some (st', CreateSuccess) /\
       getGiveaway st' ch = Some g /\
       startTime g = now /\
       endTime g = startTime g + numeralValue ds * unitMillis u).
  { intros ds u -> Hne Hds Hu [Hfree Hprice].
    destruct (createGiveaway_accepts st now eventId ch prizeText fee cap ds u
                Hne Hds Hu Hfree Hprice) as (st' & g & H1 & H2 & H3 & H4 & _).
    exists st', g. auto. }
  assert (Husage : forall rest,
     prizeOfArgs rest <> EmptyString -> durationOfArgs rest = durationStr ->
     durationStr <> EmptyString ->
     (String.eqb (prizeOfArgs rest) EmptyString
      || String.eqb (durationOfArgs rest) EmptyString)%bool = false).
  { intros rest Hprize Hdur Hne. rewrite Hdur.
    destruct (String.eqb_spec (prizeOfArgs rest) EmptyString); [contradiction|].
    destruct (String.eqb_spec durationStr EmptyString); [contradiction|].
    reflexivity. }
  split; [|split; [|split; [|split; [|split; [|split]]]]].
  - intros Hbad. apply matchDuration_None in Hbad.
    subst result. unfold createGiveaway. now rewrite Hbad.
  - intros Hok st' Hres. apply matchDuration_grammar in Hok as (ds & u & Hm).
    subst result. unfold createGiveaway in Hres. rewrite Hm in Hres.
    destruct (match getGiveaway st ch with Some e => isActive e | None => false end);
      [discriminate|].
    destruct (usdToWei st fee); discriminate.
  - intros rest Hprize Hdur Hne.
    unfold giveawayCreateInline. rewrite (Husage rest Hprize Hdur Hne), Hdur.
    split.
    + intros Hbad.
      destruct (matchDurationInline durationStr) as [[ds u]|] eqn:Hm; auto.
      exfalso. apply Hbad. apply matchDurationInline_grammar. eauto.
    + intros Hok st' Hres.
      apply matchDurationInline_grammar in Hok as (ds & u & Hm).
      rewrite Hm in Hres.
      destruct (match getGiveaway st ch with Some e => isActive e | None => false end);
        [discriminate|].
      destruct (usdToWei st fee); discriminate.
  - intros ds u Hs Hne Hds Hu Hfree _ _.
    split; [exact (Hgeneral ds u Hs Hne Hds Hu Hfree)|].
    intros Hlow rest Hprize Hdur.
    assert (Hstr : durationStr <> EmptyString)
      by (rewrite Hs; destruct ds; discriminate).
    unfold giveawayCreateInline. rewrite (Husage rest Hprize Hdur Hstr), Hdur.
    assert (Hm : matchDurationInline durationStr = Some (ds, u))
      by (apply matchDurationInline_Some; auto).
    rewrite Hm. destruct Hfree as [Hfree Hprice].
    assert (Hblocked : match getGiveaway st ch with
                       | Some existing => isActive existing
                       | None => false
                       end = false).
    { destruct (getGiveaway st ch) as [existing|]; auto. }
    rewrite Hblocked.
    destruct (usdToWei st fee) as [wei|]; [|contradiction].
    eexists _, _. split; [reflexivity|].
    split; [apply getGiveaway_put_same|]. simpl.
    rewrite parseInt_numeralValue, msOfDuration_lower by assumption.
    split; reflexivity.
  - intros Hs Hfree _ _.
    assert (Hne : "24"%string <> EmptyString) by discriminate.
    assert (Hds : Forall decimalDigit (list_ascii_of_string "24"))
      by digits_ok.
    assert (Hu : unitLetter "h") by unit_ok.
    destruct (Hgeneral "24"%string "h"%char Hs Hne Hds Hu Hfree)
      as (st' & g & H1 & H2 & H3 & H4).
    exists st', g. rewrite H4, H3. auto.
  - intros Hs Hfree _ _.
    assert (Hne : "2"%string <> EmptyString) by discriminate.
    assert (Hds : Forall decimalDigit (list_ascii_of_string "2"))
      by digits_ok.
    assert (Hu : unitLetter "d") by unit_ok.
    destruct (Hgeneral "2"%string "d"%char Hs Hne Hds Hu Hfree)
      as (st' & g & H1 & H2 & H3 & H4).
    exists st', g. rewrite H4, H3. auto.
  - intros [->| ->]; reflexivity.
Qed.

Lemma createGiveaway_duration_witness :
  DurationGrammar "24h" /\
  0 <= 1000 /\ validTime (1000 + 24 * 3600000) /\
  (forall st',
     createGiveaway initialState 1000 "announcement-1" "general" "100 USDC" "24h"
       (1 # 2) 10
     <> Some (st', CreateInvalidDuration)) /\
  exists st' g,
    createGiveaway initialState 1000 "announcement-1" "general" "100 USDC" "24h"
      (1 # 2) 10
      = Some (st', CreateSuccess) /\
    getGiveaway st' "general" = Some g /\ endTime g = 1000 + 24 * 3600000.
Proof.
  assert (Hgrammar : DurationGrammar "24h").
  { exists "24"%string, "h"%char. split; [reflexivity|]. split; [discriminate|].
    split; [digits_ok | unit_ok]. }
  assert (Hfree :
    (forall existing, getGiveaway initialState "general" = Some existing ->
                      isActive existing = false) /\
    usdToWei initialState (1 # 2) <> None).
  { split; [intros existing H; discriminate H | vm_compute; discriminate]. }
  assert (Hnow : 0 <= 1000) by lia.
  assert (Hvalid : validTime (1000 + 24 * 3600000))
    by (unfold validTime, maxTimeValue; lia).
  destruct (createGiveaway_duration initialState 1000 "announcement-1" "general"
              "100 USDC" "24h" (1 # 2) 10) as (_ & Hnot & _ & _ & H24 & _).
  split; [exact Hgrammar|]. split; [exact Hnow|]. split; [exact Hvalid|].
  split; [exact (Hnot Hgrammar)|].
  exact (H24 eq_refl Hfree Hnow Hvalid).
Defined.

(** ** Ending a giveaway *)

Lemma sweep_expires_example :
  exampleExpired =
  mkState [("general"%string, withIsActive exampleTippedGiveaway false)] (3000 # 1).
Proof. reflexivity. Qed.

(** C5, on the code.  The expiry sweep turns the tipped example into an
    Expired record.  [end] on it answers that there is no active giveaway,
    draws nothing and keeps the record; and [end] on an active giveaway
    without participants answers that no entries were received and returns
    before the record is deleted, leaving it stored and inactive. *)
Theorem giveawayEnd_keeps_expired_and_empty :
  (exists g, getGiveaway exampleExpired "general" = Some g /\ isActive g = false) /\
  (forall rnd,
     giveawayEnd exampleExpired "general" rnd = (exampleExpired, EndNoActiveGiveaway)) /\
  (forall rnd,
     giveawayEnd exampleState "general" rnd =
       (putGiveaway exampleState "general" (withIsActive exampleGiveaway false),
        EndNoEntries)) /\
  (forall rnd,
     getGiveaway (fst (giveawayEnd exampleState "general" rnd)) "general"
     = Some (withIsActive exampleGiveaway false)).
Proof.
  split; [eexists; split; reflexivity|].
  split; [reflexivity|]. split; reflexivity.
Qed.

(** In general: [end] does nothing to a record that is not active, and
    keeps the record, now inactive, when nobody takes part. *)
Lemma giveawayEnd_inactive st ch g rnd :
  getGiveaway st ch = Some g -> isActive g = false ->
  giveawayEnd st ch rnd = (st, EndNoActiveGiveaway).
Proof. intros Hg Ha. unfold giveawayEnd. now rewrite Hg, Ha. Qed.

Lemma giveawayEnd_no_participants st ch g rnd :
  getGiveaway st ch = Some g -> isActive g = true ->
  reactionEntries g = JsMap.empty -> tipEntries g = JsMap.empty ->
  giveawayEnd st ch rnd = (putGiveaway st ch (withIsActive g false), EndNoEntries).
Proof.
  intros Hg Ha Hr Ht. unfold giveawayEnd. rewrite Hg, Ha. simpl.
  unfold selectWinner, allUsers. simpl. now rewrite Hr, Ht.
Qed.

(** When a winner is drawn the record is removed. *)
Lemma giveawayEnd_winner_removes st ch rnd st' w we te n :
  giveawayEnd st ch rnd = (st', EndWinner w we te n) ->
  getGiveaway st' ch = None /\ ethPriceUsd st' = ethPriceUsd st.
Proof.
  unfold giveawayEnd.
  destruct (getGiveaway st ch) as [g|]; [|discriminate].
  destruct (negb (isActive g)); [discriminate|].
  destruct (selectWinner _ rnd) as [winner|]; [|discriminate].
  destruct (String.eqb winner EmptyString); [discriminate|].
  intros [= <- _ _ _ _]. split; [apply getGiveaway_delete_same | reflexivity].
Qed.

(** ** Creating over an existing record *)

(** C6, counterexample.  An Expired record exists on the channel, and
    [createGiveaway] succeeds: it does not answer that a giveaway is
    already active, and the new giveaway replaces the undrawn one. *)
Lemma expired_record_does_not_block_create :
  let result :=
    createGiveaway exampleExpired 90000000 "announcement-2" "general" "1 ETH" "24h"
      (1 # 2) 10 in
  (exists g, getGiveaway exampleExpired "general" = Some g /\ isActive g = false) /\
  (forall st', result <> Some (st', CreateAlreadyActive)) /\
  exists st' g',
    result = Some (st', CreateSuccess) /\
    getGiveaway st' "general" = Some g' /\
    isActive g' = true /\ tipEntries g' = JsMap.empty.
Proof.
  split; [eexists; split; reflexivity|].
  split; [intros st'; vm_compute; discriminate|].
  eexists _, _. split; [vm_compute; reflexivity|].
  split; [reflexivity|]. split; reflexivity.
Qed.

(** C6, amended.  [createGiveaway] with a well-formed duration answers
    that a giveaway is already active, changing nothing, if and only if a
    record with [isActive = true] is stored for the channel.  An Expired
    record does not block: the new giveaway replaces it.  After an [end]
    that drew a winner the channel has no record and the creation
    succeeds.  (Creation needs the fee to convert to wei.) *)
Theorem createGiveaway_already_active st now eventId ch prizeText durationStr fee cap :
  DurationGrammar durationStr ->
  let result := createGiveaway st now eventId ch prizeText durationStr fee cap in
  ((exists st', result = Some (st', CreateAlreadyActive)) <->
   (exists g, getGiveaway st ch = Some g /\ isActive g = true)) /\
  (forall st', result = Some (st', CreateAlreadyActive) -> st' = st) /\
  (forall g, getGiveaway st ch = Some g -> isActive g = false ->
     usdToWei st fee <> None ->
     exists st' g',
       result = Some (st', CreateSuccess) /\
       getGiveaway st' ch = Some g' /\ isActive g' = true /\
       tipEntries g' = JsMap.empty /\ reactionEntries g' = JsMap.empty) /\
  (forall st0 rnd w we te n,
     giveawayEnd st0 ch rnd = (st, EndWinner w we te n) ->
     usdToWei st fee <> None ->
     exists st', result = Some (st', CreateSuccess)).
Proof.
  intros Hok result.
  pose proof Hok as (ds & u & -> & Hne & Hds & Hu).
  assert (Hm : matchDuration (ds ++ String u EmptyString) = Some (ds, u))
    by (apply matchDuration_Some; auto).
  assert (Hfree : (forall e, getGiveaway st ch = Some e -> isActive e = false) ->
            usdToWei st fee <> None ->
            exists st' g',
              result = Some (st', CreateSuccess) /\
              getGiveaway st' ch = Some g' /\ isActive g' = true /\
              tipEntries g' = JsMap.empty /\ reactionEntries g' = JsMap.empty).
  { intros Hf Hprice.
    destruct (createGiveaway_accepts st now eventId ch prizeText fee cap ds u
                Hne Hds Hu Hf Hprice)
      as (st' & g' & H1 & H2 & _ & _ & H5 & H6 & H7 & _).
    exists st', g'. auto. }
  split; [|split; [|split]].
  - subst result. unfold createGiveaway. rewrite Hm. split.
    + intros (st' & Hres).
      destruct (getGiveaway st ch) as [g|]; simpl in Hres.
      * destruct (isActive g) eqn:Ha; [eauto|].
        destruct (usdToWei st fee); discriminate.
      * destruct (usdToWei st fee); discriminate.
    + intros (g & Hg & Ha). rewrite Hg, Ha. eauto.
  - subst result. unfold createGiveaway. rewrite Hm. intros st'.
    destruct (match getGiveaway st ch with Some e => isActive e | None => false end).
    + now intros [= <-].
    + destruct (usdToWei st fee); discriminate.
  - intros g Hg Ha Hprice. apply Hfree; auto.
    intros e He. congruence.
  - intros st0 rnd w we te n Hend Hprice.
    apply giveawayEnd_winner_removes in Hend as [Hnone _].
    destruct Hfree as (st' & _ & H & _); eauto.
    intros e He. congruence.
Qed.

Lemma createGiveaway_already_active_witness :
  DurationGrammar "24h" /\
  ((exists st',
      createGiveaway exampleTipped 5000 "announcement-2" "general" "1 ETH" "24h"
        (1 # 2) 10 = Some (st', CreateAlreadyActive)) <->
   (exists g, getGiveaway exampleTipped "general" = Some g /\ isActive g = true)).
Proof.
  assert (Hgrammar : DurationGrammar "24h").
  { exists "24"%string, "h"%char. split; [reflexivity|]. split; [discriminate|].
    split; [digits_ok | unit_ok]. }
  split; [exact Hgrammar|].
  exact (proj1 (createGiveaway_already_active exampleTipped 5000 "announcement-2"
                  "general" "1 ETH" "24h" (1 # 2) 10 Hgrammar)).
Defined.

Lemma exampleTipped_reached : runTips "bot" exampleState exampleTips = exampleTipped.
Proof. reflexivity. Qed.

(** ** The converter *)

Lemma parseEther_sign x :
  ((x <= 0)%Q -> parseEther x <= 0) /\
  ((0 <= x)%Q -> 0 <= parseEther x) /\
  ((x == 0)%Q -> parseEther x = 0).
Proof.
  unfold parseEther.
  set (scaled := (Qabs x * inject_Z (10 ^ 18) + (1 # 2))%Q).
  assert (Hfloor : 0 <= Qfloor scaled).
  { assert (H : (inject_Z 0 <= scaled)%Q).
    { unfold scaled. change (inject_Z 0) with (0 + 0)%Q.
      apply Qplus_le_compat; [|discriminate].
      apply Qmult_le_0_compat; [apply Qabs_nonneg | discriminate]. }
    apply Qfloor_resp_le in H. now rewrite Qfloor_Z in H. }
  clearbody scaled. destruct x as [n d]. unfold Qle, Qeq. cbn [Qnum Qden].
  rewrite !Z.mul_1_r, !Z.mul_0_l.
  repeat split; intros H; destruct n; cbn [Z.sgn]; lia.
Qed.

Lemma parseEther_lower x :
  ((1 # 1000000) <= x)%Q -> 10 ^ 12 <= parseEther x.
Proof.
  intros Hx. unfold parseEther.
  assert (Hpos : (0 < x)%Q) by (eapply Qlt_le_trans; [|exact Hx]; reflexivity).
  assert (Hnum : 0 < Qnum x).
  { unfold Qlt in Hpos. simpl in Hpos. lia. }
  assert (Hsgn : Z.sgn (Qnum x) = 1) by (apply Z.sgn_pos; lia).
  rewrite Hsgn, Z.mul_1_l.
  assert (H : (inject_Z (10 ^ 12) <= Qabs x * inject_Z (10 ^ 18) + (1 # 2))%Q).
  { setoid_replace (inject_Z (10 ^ 12))
      with ((1 # 1000000) * inject_Z (10 ^ 18) + 0)%Q by reflexivity.
    apply Qplus_le_compat; [|discriminate].
    apply Qmult_le_compat_r; [|discriminate].
    eapply Qle_trans; [exact Hx | apply Qle_Qabs]. }
  apply Qfloor_resp_le in H. now rewrite Qfloor_Z in H.
Qed.

(** The text of a number reads back as that number. *)
Lemma toString_reads_back x t :
  toString x = DecimalText t -> exists back, number t = Some back /\ (back == x)%Q.
Proof.
  intros H. apply toString_decimal in H
    as [[Hz ->]|(s & n & k & Hnz & [Hn _] & Hk & Hs & Hrt & ->)].
  - exists 0%Q. split; [reflexivity | now symmetry].
  - pose proof (decimalOf_lower s n k Hk Hs Hn) as Hlow.
    set (dec := decimalOf s n k) in *.
    unfold roundTrips in Hrt. fold dec in Hrt.
    destruct (nearestDouble dec) as [d'|] eqn:Hd; [|discriminate].
    apply Qeq_bool_iff in Hrt.
    assert (Hpos : (0 < dec)%Q) by lra.
    destruct (Qle_bool 0 x) eqn:Hx.
    + apply Qle_bool_iff in Hx. unfold number.
      assert (Hne : Qeq_bool dec 0 = false).
      { destruct (Qeq_bool dec 0) eqn:E; auto. apply Qeq_bool_iff in E. lra. }
      rewrite Hne, (Qabs_eq_nonneg dec) by lra. rewrite Hd. cbn [option_map].
      assert (Hle : Qle_bool 0 dec = true) by (apply Qle_bool_iff; lra).
      rewrite Hle. exists d'. split; [reflexivity|].
      rewrite Hrt. now apply Qabs_pos.
    + assert (Hneg : (x <= 0)%Q).
      { destruct (Qlt_le_dec 0 x) as [H|H]; auto.
        assert (Qle_bool 0 x = true) by (apply Qle_bool_iff; lra). congruence. }
      unfold number.
      assert (Hne : Qeq_bool (- dec) 0 = false).
      { destruct (Qeq_bool (- dec) 0) eqn:E; auto. apply Qeq_bool_iff in E. lra. }
      rewrite Hne, Qabs_opp_eq, (Qabs_eq_nonneg dec) by lra.
      rewrite Hd. cbn [option_map].
      assert (Hle : Qle_bool 0 (- dec) = false).
      { destruct (Qle_bool 0 (- dec)) eqn:E; auto. apply Qle_bool_iff in E. lra. }
      rewrite Hle. exists (- d')%Q. split; [reflexivity|].
      rewrite Hrt. rewrite (Qabs_neg x Hneg). ring.
Qed.

Lemma quotient_nonneg a b e :
  quotient a b = Some e -> (0 <= a)%Q -> (0 <= b)%Q -> (0 <= e)%Q.
Proof.
  unfold quotient. intros H Ha Hb.
  destruct (number a) as [x|] eqn:Hx; [|discriminate].
  destruct (number_near a x Hx) as (_ & Hx0 & _).
  destruct (number b) as [y|] eqn:Hy.
  - destruct (number_near b y Hy) as (_ & Hy0 & _).
    destruct (Qeq_bool y 0) eqn:Hz; [discriminate|].
    apply Qeq_bool_neq in Hz.
    destruct (number_near _ e H) as (_ & He & _). apply He.
    apply Qle_shift_div_l; [|lra].
    destruct (Qlt_le_dec 0 y); auto. exfalso. apply Hz. specialize (Hy0 Hb). lra.
  - injection H as <-. lra.
Qed.

(** A quotient that is not negative prints as 0 or as a numeral of at least
    [0.000001]. *)
Lemma toString_nonneg x t :
  toString x = DecimalText t -> (0 <= x)%Q ->
  ((x == 0)%Q /\ t = 0%Q) \/ (1 # 1000000 <= t)%Q.
Proof.
  intros H Hx. apply toString_decimal in H
    as [?|(s & n & k & Hnz & [Hn _] & Hk & Hs & _ & ->)]; [auto|].
  right. apply Qle_bool_iff in Hx. rewrite Hx. now apply decimalOf_lower.
Qed.

Lemma usdToWei_result st usd wei :
  usdToWei st usd = Some wei ->
  exists ethAmount text,
    quotient usd (ethPriceUsd st) = Some ethAmount /\
    toString ethAmount = DecimalText text /\
    wei = parseEther text.
Proof.
  unfold usdToWei.
  destruct (quotient usd (ethPriceUsd st)) as [e|]; [|discriminate].
  destruct (toString e) as [t|] eqn:Ht; [|discriminate].
  intros [= <-]. exists e, t. auto.
Qed.

(** At an amount and a rate that are not negative the conversion gives 0
    wei, for a quotient that is 0, or at least [10^12] wei. *)
Lemma usdToWei_nonneg st usd wei :
  (0 <= usd)%Q -> (0 <= ethPriceUsd st)%Q -> usdToWei st usd = Some wei ->
  (wei = 0 /\ exists ethAmount,
      quotient usd (ethPriceUsd st) = Some ethAmount /\ (ethAmount == 0)%Q) \/
  10 ^ 12 <= wei.
Proof.
  intros Hu Hr H.
  apply usdToWei_result in H as (e & t & Hq & Ht & ->).
  pose proof (quotient_nonneg _ _ _ Hq Hu Hr) as He.
  destruct (toString_nonneg e t Ht He) as [[Hz ->]|Hbig].
  - left. split; [reflexivity | eauto].
  - right. now apply parseEther_lower.
Qed.

Lemma usdToWei_opp st usd :
  usdToWei st (- usd) = option_map Z.opp (usdToWei st usd).
Proof.
  unfold usdToWei. rewrite quotient_opp.
  destruct (quotient usd (ethPriceUsd st)) as [e|]; cbn [option_map]; [|reflexivity].
  rewrite toString_opp.
  destruct (toString e) as [t|]; cbn [negateText option_map]; [|reflexivity].
  now rewrite parseEther_opp.
Qed.

Lemma usdToWei_zero st usd :
  (usd == 0)%Q -> (forall y, number (ethPriceUsd st) = Some y -> ~ (y == 0)%Q) ->
  usdToWei st usd = Some 0.
Proof.
  intros Hz Hrate. unfold usdToWei, quotient.
  assert (Hu : number usd = Some 0%Q).
  { unfold number. apply Qeq_bool_iff in Hz. now rewrite Hz. }
  rewrite Hu.
  destruct (number (ethPriceUsd st)) as [y|] eqn:Hy; [|reflexivity].
  destruct (Qeq_bool y 0) eqn:Hy0.
  - apply Qeq_bool_iff in Hy0. now destruct (Hrate y eq_refl).
  - assert (Hq : number (0 / y) = Some 0%Q).
    { unfold number.
      assert (E : Qeq_bool (0 / y) 0 = true)
        by (apply Qeq_bool_iff; unfold Qdiv; ring).
      now rewrite E. }
    rewrite Hq. reflexivity.
Qed.

Lemma usdToWei_zero_rate st usd y :
  number (ethPriceUsd st) = Some y -> (y == 0)%Q -> usdToWei st usd = None.
Proof.
  intros Hy Hz. unfold usdToWei, quotient. rewrite Hy.
  apply Qeq_bool_iff in Hz. rewrite Hz.
  now destruct (number usd).
Qed.

Lemma notPositive_le x : (x <= 0)%Q -> notPositive x = true.
Proof.
  intros Hx. unfold notPositive.
  destruct (number x) as [d|] eqn:Hd; apply Qle_bool_iff; [|exact Hx].
  destruct (number_near x d Hd) as (_ & _ & H). auto.
Qed.

Lemma notPositive_false x : notPositive x = false -> (0 < x)%Q.
Proof.
  intros H. destruct (Qlt_le_dec 0 x) as [|Hle]; auto.
  rewrite (notPositive_le x Hle) in H. discriminate.
Qed.

(** C9, counterexample.  At the default rate of 3000 the conversion of a
    zero amount and of a negative amount does not fail: it returns 0 wei
    and a negative number of wei. *)
Lemma usdToWei_accepts_nonpositive :
  (ethPriceUsd exampleState == 3000)%Q /\
  usdToWei exampleState 0 = Some 0 /\
  usdToWei exampleState (- (1 # 2)) = Some (-166666666666667).
Proof.
  split; [reflexivity|]. split; vm_compute; reflexivity.
Qed.

(** C9 (amended).  [usdToWei] checks nothing: it returns the quotient of the
    amount and the rate, as the double division gives it, printed and read
    as ether.  An amount of 0 gives 0 wei at every rate that is not 0, and a
    negative amount is converted as its opposite is, to the opposite number
    of wei.  A result is within half a wei of the printed quotient, the
    text reads back as the double quotient, and that is within half a unit
    in the last place of the exact quotient of the two numbers; for an
    amount and a rate that are not negative it is not negative.  The
    conversion fails exactly when the quotient is not finite, as at a rate
    of 0, or is printed in exponent notation, never for the sign of the
    amount.  The checks are in the callers: [set-fee] rejects a fee that is
    not positive and [set-eth-price] a price that is not positive, both
    leaving the state as it is, and an accepted price is positive. *)
Theorem usdToWei_unchecked st usdAmount :
  ((usdAmount == 0)%Q ->
   (forall y, number (ethPriceUsd st) = Some y -> ~ (y == 0)%Q) ->
     usdToWei st usdAmount = Some 0) /\
  usdToWei st (- usdAmount) = option_map Z.opp (usdToWei st usdAmount) /\
  (forall wei, usdToWei st usdAmount = Some wei ->
     exists ethAmount text,
       quotient usdAmount (ethPriceUsd st) = Some ethAmount /\
       toString ethAmount = DecimalText text /\
       wei = parseEther text /\
       (Qabs (inject_Z wei - text * inject_Z (10 ^ 18)) <= 1 # 2)%Q /\
       (exists back, number text = Some back /\ (back == ethAmount)%Q) /\
       (forall x y,
          number usdAmount = Some x -> number (ethPriceUsd st) = Some y ->
          (Qabs (ethAmount - x / y) <= halfUlp (Qabs (x / y)))%Q) /\
       ((0 <= usdAmount)%Q -> (0 <= ethPriceUsd st)%Q -> 0 <= wei)) /\
  (usdToWei st usdAmount = None <->
     quotient usdAmount (ethPriceUsd st) = None \/
     exists ethAmount,
       quotient usdAmount (ethPriceUsd st) = Some ethAmount /\
       toString ethAmount = OtherText) /\
  (forall y, number (ethPriceUsd st) = Some y -> (y == 0)%Q ->
     usdToWei st usdAmount = None) /\
  (forall ch feeUsd, (feeUsd <= 0)%Q ->
     giveawaySetFee st ch (ArgNum feeUsd) = Some (st, SetInvalid)) /\
  (forall price, (price <= 0)%Q ->
     giveawaySetEthPrice st (ArgNum price) = (st, SetInvalid)) /\
  (forall price st', giveawaySetEthPrice st (ArgNum price) = (st', SetUpdated) ->
     (0 < price)%Q /\ ethPriceUsd st' = price /\
     activeGiveaways st' = activeGiveaways st).
Proof.
  split; [apply usdToWei_zero|].
  split; [apply usdToWei_opp|].
  split; [|split; [|split; [|split; [|split]]]].
  - intros wei Hw.
    pose proof (usdToWei_nonneg st usdAmount wei) as Hsign.
    apply usdToWei_result in Hw as Hres. destruct Hres as (e & t & Hq & Ht & ->).
    exists e, t. split; [exact Hq|]. split; [exact Ht|]. split; [reflexivity|].
    split; [apply parseEther_near|].
    split; [now apply toString_reads_back with (x := e)|].
    split.
    + intros x y Hx Hy. unfold quotient in Hq. rewrite Hx, Hy in Hq.
      destruct (Qeq_bool y 0); [discriminate|].
      now destruct (number_near _ _ Hq).
    + intros Hu Hr. destruct (Hsign Hu Hr Hw) as [[-> _]|H]; lia.
  - unfold usdToWei.
    destruct (quotient usdAmount (ethPriceUsd st)) as [e|].
    + destruct (toString e) as [t|] eqn:Ht; split; try discriminate; eauto.
      * intros [H|(e' & [= <-] & H)]; [discriminate | congruence].
    + split; auto.
  - intros y. apply usdToWei_zero_rate.
  - intros ch feeUsd Hfee. unfold giveawaySetFee.
    now rewrite (notPositive_le feeUsd Hfee).
  - intros price Hp. unfold giveawaySetEthPrice.
    now rewrite (notPositive_le price Hp).
  - intros price st'. unfold giveawaySetEthPrice.
    destruct (notPositive price) eqn:Hp; [discriminate|].
    intros [= <-]. simpl. repeat split.
    now apply notPositive_false.
Qed.

Lemma usdToWei_unchecked_witness :
  (0 <= 10)%Q /\ (0 <= ethPriceUsd exampleState)%Q /\
  usdToWei exampleState 10 = Some 3333333333333334 /\
  0 <= 3333333333333334.
Proof.
  assert (Hrun : usdToWei exampleState 10 = Some 3333333333333334)
    by (vm_compute; reflexivity).
  assert (Hu : (0 <= 10)%Q) by discriminate.
  assert (Hr : (0 <= ethPriceUsd exampleState)%Q) by discriminate.
  destruct (usdToWei_unchecked exampleState 10) as (_ & _ & Hvalue & _).
  destruct (Hvalue _ Hrun) as (e & t & _ & _ & _ & _ & _ & _ & Hsign).
  split; [exact Hu|]. split; [exact Hr|]. split; [exact Hrun|].
  exact (Hsign Hu Hr).
Defined.

(** * More properties of the code *)

(** ** The tip ledger *)



(** X2. Over any sequence of tips a stored giveaway stays stored, its
    reaction entries, cap and fee stay as they are, and no tip count ever
    decreases. *)
Theorem runTips_monotone botId events st ch g :
  getGiveaway st ch = Some g ->
  exists g',
    getGiveaway (runTips botId st events) ch = Some g' /\
    reactionEntries g' = reactionEntries g /\
    tipEntryCap g' = tipEntryCap g /\
    tipEntryFee g' = tipEntryFee g /\
    forall q, getOr0 (tipEntries g) q <= getOr0 (tipEntries g') q.
Proof.
  unfold runTips. revert st g.
  induction events as [|e events IH]; intros st g Hg; simpl.
  - exists g. repeat split; auto. intros; lia.
  - destruct (tipStep_effect botId st e ch g Hg)
      as (g1 & Hg1 & Hcap & Hfee & Hre & _ & Hq).
    destruct (IH _ g1 Hg1) as (g2 & Hg2 & Hre2 & Hcap2 & Hfee2 & Hq2).
    exists g2. repeat split; try congruence.
    intros q. specialize (Hq2 q).
    destruct (Hq q) as [E|(_ & _ & ?)]; lia.
Qed.

Lemma runTips_monotone_witness :
  getGiveaway exampleState "general" = Some exampleGiveaway /\
  exists g',
    getGiveaway (runTips "bot" exampleState exampleTips) "general" = Some g' /\
    getOr0 (tipEntries exampleGiveaway) "alice" <= getOr0 (tipEntries g') "alice".
Proof.
  split; [reflexivity|].
  destruct (runTips_monotone "bot" exampleTips exampleState "general"
              exampleGiveaway eq_refl) as (g' & Hg' & _ & _ & _ & Hq).
  exists g'. split; [exact Hg' | exact (Hq "alice"%string)].
Defined.

(** ** Reactions *)

Lemma onReaction_open st now event g :
  re_reaction event = giftEmoji ->
  getGiveaway st (re_channelId event) = Some g -> isActive g = true ->
  isAnnouncement g (re_messageId event) = true -> now <= endTime g ->
  onReaction st now event =
  putGiveaway st (re_channelId event)
    (withReactionEntries g
       (JsMap.set (reactionEntries g) (re_userId event)
          (getOr0 (reactionEntries g) (re_userId event) + 1))).
Proof.
  intros He Hg Ha Hm Ht. unfold onReaction, addReactionEntry.
  rewrite He, String.eqb_refl, Hg, Ha, Hm. simpl.
  destruct (Z.ltb_spec (endTime g) now); [lia | reflexivity].
Qed.



(** X4. The ledger does not deduplicate: the same reaction delivered [k]
    times adds [k] reaction entries. *)
Theorem onReaction_repeats_compound st now event g k :
  re_reaction event = giftEmoji ->
  getGiveaway st (re_channelId event) = Some g -> isActive g = true ->
  isAnnouncement g (re_messageId event) = true -> now <= endTime g ->
  exists g',
    getGiveaway (Nat.iter k (fun s => onReaction s now event) st) (re_channelId event)
      = Some g' /\
    getOr0 (reactionEntries g') (re_userId event) =
      getOr0 (reactionEntries g) (re_userId event) + Z.of_nat k /\
    tipEntries g' = tipEntries g.
Proof.
  intros He Hg Ha Hm Ht.
  assert (Hinv : exists g',
    getGiveaway (Nat.iter k (fun s => onReaction s now event) st) (re_channelId event)
      = Some g' /\
    getOr0 (reactionEntries g') (re_userId event) =
      getOr0 (reactionEntries g) (re_userId event) + Z.of_nat k /\
    tipEntries g' = tipEntries g /\ isActive g' = true /\
    endTime g' = endTime g /\ announcementMessageId g' = announcementMessageId g).
  { induction k as [|k IH].
    - exists g. simpl. repeat split; auto; lia.
    - destruct IH as (g1 & Hg1 & Hc1 & Ht1 & Ha1 & He1 & Hm1).
      rewrite Nat.iter_succ.
      rewrite (onReaction_open _ now event g1 He Hg1 Ha1);
        [|unfold isAnnouncement in *; now rewrite Hm1 | lia].
      eexists. split; [apply getGiveaway_put_same|].
      cbn [reactionEntries tipEntries isActive endTime announcementMessageId
             withReactionEntries].
      rewrite getOr0_set, String.eqb_refl. repeat split; auto; lia. }
  destruct Hinv as (g' & H1 & H2 & H3 & _). eauto.
Qed.

Lemma onReaction_repeats_compound_witness :
  let event := mkReaction giftEmoji "general" "announcement-1" "carol" in
  re_reaction event = giftEmoji /\
  getGiveaway exampleTipped (re_channelId event) = Some exampleTippedGiveaway /\
  isActive exampleTippedGiveaway = true /\
  isAnnouncement exampleTippedGiveaway (re_messageId event) = true /\
  500 <= endTime exampleTippedGiveaway /\
  exists g',
    getGiveaway (Nat.iter 3 (fun s => onReaction s 500 event) exampleTipped) "general"
      = Some g' /\
    getOr0 (reactionEntries g') "carol" = 0 + 3.
Proof.
  intros event.
  assert (Ht : 500 <= endTime exampleTippedGiveaway) by (vm_compute; discriminate).
  repeat (split; [first [reflexivity | exact Ht]|]).
  destruct (onReaction_repeats_compound exampleTipped 500 event exampleTippedGiveaway
              3 eq_refl eq_refl eq_refl eq_refl Ht) as (g' & Hg' & Hcount & _).
  exists g'. split; [exact Hg' | exact Hcount].
Defined.

(** X5. A reaction changes the state only when it is the gift emoji on the
    announcement of an active giveaway of its channel; then either one
    entry is credited or, the end time being passed, the giveaway is made
    inactive and nothing is credited.  Any other reaction is ignored. *)
Theorem onReaction_changes_only_through_guards st now event :
  onReaction st now event <> st ->
  re_reaction event = giftEmoji /\
  exists g,
    getGiveaway st (re_channelId event) = Some g /\ isActive g = true /\
    announcementMessageId g = Some (re_messageId event) /\
    ((now <= endTime g /\
      onReaction st now event = addReactionEntry st (re_channelId event) (re_userId event) 1)
     \/
     (endTime g < now /\
      onReaction st now event =
        putGiveaway st (re_channelId event) (withIsActive g false))).
Proof.
  intros Hchg.
  assert (Hguards : re_reaction event = giftEmoji /\
            exists g, getGiveaway st (re_channelId event) = Some g /\
                      isActive g = true /\
                      announcementMessageId g = Some (re_messageId event)).
  { unfold onReaction in Hchg.
    destruct (String.eqb_spec (re_reaction event) giftEmoji) as [He|];
      simpl in Hchg; [|contradiction].
    split; [exact He|].
    destruct (getGiveaway st (re_channelId event)) as [g|]; [|contradiction].
    destruct (isActive g) eqn:Ha; simpl in Hchg; [|contradiction].
    unfold isAnnouncement in Hchg.
    destruct (announcementMessageId g) as [a|] eqn:Hm; simpl in Hchg;
      [|contradiction].
    destruct (String.eqb_spec (re_messageId event) a) as [->|]; simpl in Hchg;
      [|contradiction].
    exists g. auto. }
  destruct Hguards as (He & g & Hg & Ha & Hm).
  split; [exact He|]. exists g. repeat split; auto.
  unfold onReaction, isAnnouncement.
  rewrite He, String.eqb_refl, Hg, Ha, Hm, String.eqb_refl. simpl.
  destruct (Z.ltb_spec (endTime g) now); [right | left]; auto.
Qed.

Lemma onReaction_changes_only_through_guards_witness :
  let event := mkReaction giftEmoji "general" "announcement-1" "carol" in
  onReaction exampleTipped 500 event <> exampleTipped /\
  re_reaction event = giftEmoji /\
  exists g, getGiveaway exampleTipped (re_channelId event) = Some g /\ isActive g = true.
Proof.
  intros event.
  assert (Hchg : onReaction exampleTipped 500 event <> exampleTipped)
    by (vm_compute; discriminate).
  split; [exact Hchg|].
  destruct (onReaction_changes_only_through_guards exampleTipped 500 event Hchg)
    as (He & g & Hg & Ha & _).
  split; [exact He|]. exists g. split; [exact Hg | exact Ha].
Defined.

(** ** Expiry: the sweep and the handlers *)

Lemma getGiveaway_sweep st now ch :
  getGiveaway (sweep st now) ch = option_map (expire now) (getGiveaway st ch).
Proof.
  unfold getGiveaway, sweep. cbn [activeGiveaways].
  induction (activeGiveaways st) as [|[k g] m IH]; simpl; auto.
  destruct (isActive g && (endTime g <? now)) eqn:E; simpl;
    destruct (String.eqb k ch); auto; simpl; unfold expire; now rewrite E.
Qed.

Lemma keys_sweep st now :
  JsMap.keys (activeGiveaways (sweep st now)) = JsMap.keys (activeGiveaways st).
Proof.
  unfold sweep, JsMap.keys. cbn [activeGiveaways]. rewrite map_map.
  apply map_ext. intros [k g]. now destruct (isActive g && (endTime g <? now)).
Qed.

Lemma expire_expire t1 t2 g : expire t2 (expire t1 g) = expire (Z.max t1 t2) g.
Proof.
  unfold expire. destruct (isActive g) eqn:Ha; simpl.
  - destruct (Z.ltb_spec (endTime g) t1); simpl.
    + destruct (Z.ltb_spec (endTime g) (Z.max t1 t2)); [reflexivity | lia].
    + rewrite Ha. simpl.
      destruct (Z.ltb_spec (endTime g) t2);
        destruct (Z.ltb_spec (endTime g) (Z.max t1 t2)); auto; lia.
  - now rewrite Ha.
Qed.

Lemma sweep_map st now :
  sweep st now =
  mkState (map (fun entry => (fst entry, expire now (snd entry))) (activeGiveaways st))
    (ethPriceUsd st).
Proof.
  unfold sweep. f_equal. apply map_ext. intros [k g]. unfold expire. simpl.
  now destruct (isActive g && (endTime g <? now)).
Qed.

(** X6. The sweep makes inactive exactly the active giveaways whose end
    time is before [now], and changes nothing else: the same channels stay
    registered, and every record keeps all its fields but [isActive]. *)
Theorem sweep_expires_exactly st now :
  JsMap.keys (activeGiveaways (sweep st now)) = JsMap.keys (activeGiveaways st) /\
  ethPriceUsd (sweep st now) = ethPriceUsd st /\
  (forall ch, getGiveaway st ch = None -> getGiveaway (sweep st now) ch = None) /\
  (forall ch g, getGiveaway st ch = Some g ->
     exists g',
       getGiveaway (sweep st now) ch = Some g' /\
       g' = withIsActive g (isActive g') /\
       (isActive g' = true <-> isActive g = true /\ now <= endTime g)).
Proof.
  split; [apply keys_sweep|]. split; [reflexivity|]. split.
  - intros ch Hn. now rewrite getGiveaway_sweep, Hn.
  - intros ch g Hg. rewrite getGiveaway_sweep, Hg. simpl.
    eexists. split; [reflexivity|]. unfold expire.
    destruct (isActive g) eqn:Ha; simpl.
    + destruct (Z.ltb_spec (endTime g) now); simpl.
      * split; [reflexivity|]. split; [discriminate | intros [_ ?]; lia].
      * rewrite Ha. split; [now destruct g; simpl in *; subst|].
        split; auto.
    + rewrite Ha. split; [now destruct g; simpl in *; subst|].
      split; [discriminate | intros [? _]; discriminate].
Qed.

(** X7. Sweeping twice is sweeping once at the later time; in particular
    the sweep is idempotent. *)
Theorem sweep_sweep st t1 t2 :
  sweep (sweep st t1) t2 = sweep st (Z.max t1 t2).
Proof.
  rewrite !sweep_map. cbn [activeGiveaways ethPriceUsd]. f_equal.
  rewrite map_map. apply map_ext. intros [k g]. cbn [fst snd].
  now rewrite expire_expire.
Qed.

(** X8. A tip for the bot on an active giveaway whose end time has passed
    credits nothing: the handler makes the giveaway inactive, leaving the
    record the sweep would leave, and from then on every tip and every
    reaction on that channel is ignored. *)
Theorem onTip_lazy_expiry st botId now event g :
  te_receiverAddress event = botId ->
  getGiveaway st (te_channelId event) = Some g -> isActive g = true ->
  endTime g < now ->
  let st' := putGiveaway st (te_channelId event) (withIsActive g false) in
  onTip st botId now event = Some (st', TipExpired) /\
  getGiveaway st' (te_channelId event) = getGiveaway (sweep st now) (te_channelId event) /\
  (forall ch', ch' <> te_channelId event -> getGiveaway st' ch' = getGiveaway st ch') /\
  (forall now' event', te_channelId event' = te_channelId event ->
     onTip st' botId now' event' = Some (st', TipIgnored)) /\
  (forall now' event', re_channelId event' = te_channelId event ->
     onReaction st' now' event' = st').
Proof.
  intros Hr Hg Ha Hend st'.
  assert (Hg' : getGiveaway st' (te_channelId event) = Some (withIsActive g false))
    by apply getGiveaway_put_same.
  split; [|split; [|split; [|split]]].
  - unfold onTip. rewrite Hr, String.eqb_refl, Hg, Ha. simpl.
    destruct (Z.ltb_spec (endTime g) now); [reflexivity | lia].
  - rewrite Hg', getGiveaway_sweep, Hg. simpl. unfold expire. rewrite Ha. simpl.
    destruct (Z.ltb_spec (endTime g) now); [reflexivity | lia].
  - intros ch' Hne. apply getGiveaway_put_other. congruence.
  - intros now' event' Hch. unfold onTip. rewrite Hch, Hg'. simpl.
    now destruct (negb (te_receiverAddress event' =? botId)%string).
  - intros now' event' Hch. unfold onReaction. rewrite Hch, Hg'. simpl.
    now destruct (negb (re_reaction event' =? giftEmoji)%string).
Qed.

Lemma onTip_lazy_expiry_witness :
  let event := mkTip "general" "bot" "bob" 5000 in
  te_receiverAddress event = "bot"%string /\
  getGiveaway exampleTipped (te_channelId event) = Some exampleTippedGiveaway /\
  isActive exampleTippedGiveaway = true /\
  endTime exampleTippedGiveaway < 86400001 /\
  onTip exampleTipped "bot" 86400001 event = Some (exampleExpired, TipExpired).
Proof.
  intros event.
  assert (Hend : endTime exampleTippedGiveaway < 86400001) by reflexivity.
  repeat (split; [first [reflexivity | exact Hend]|]).
  exact (proj1 (onTip_lazy_expiry exampleTipped "bot" 86400001 event
                  exampleTippedGiveaway eq_refl eq_refl eq_refl Hend)).
Defined.

(** ** Ending: what each answer means *)

Lemma selectWinner_Some_In g rnd w :
  selectWinner g rnd = Some w -> In w (weightedEntries g).
Proof.
  unfold selectWinner, arrayAt.
  destruct (allUsers g); [discriminate|].
  destruct (weightedEntries g) as [|x pool]; [discriminate|].
  destruct (_ <? 0); [discriminate|]. apply nth_error_In.
Qed.

Lemma sumZ_member (f : string -> Z) users w :
  (forall p, 0 <= f p) -> In w users -> f w <= sumZ (map f users).
Proof.
  intros Hf. induction users as [|u users IH]; simpl; [tauto|].
  assert (H0 : 0 <= sumZ (map f users)).
  { clear IH. induction users as [|v users IH]; simpl; [lia|].
    pose proof (Hf v). lia. }
  intros [->|Hin]; [lia|]. pose proof (Hf u). specialize (IH Hin). lia.
Qed.

(** X9. What [end] has done can be read off its answer.  "No active
    giveaway": nothing changed, and the channel has no record or an inactive
    one.  "No entries": the record was active, is kept and is now inactive.
    A winner: the record was active and is removed; the winner is a
    participant, and the figures announced are the winner's total (positive),
    the sum of all totals and the number of participants.  The other channels
    and the rate are never touched. *)
Theorem giveawayEnd_outcomes st ch rnd :
  (forall ch', ch' <> ch ->
     getGiveaway (fst (giveawayEnd st ch rnd)) ch' = getGiveaway st ch') /\
  ethPriceUsd (fst (giveawayEnd st ch rnd)) = ethPriceUsd st /\
  match snd (giveawayEnd st ch rnd) with
  | EndNoActiveGiveaway =>
      fst (giveawayEnd st ch rnd) = st /\
      (forall g, getGiveaway st ch = Some g -> isActive g = false)
  | EndNoEntries =>
      exists g,
        getGiveaway st ch = Some g /\ isActive g = true /\
        getGiveaway (fst (giveawayEnd st ch rnd)) ch = Some (withIsActive g false) /\
        (selectWinner g rnd = None \/ selectWinner g rnd = Some EmptyString)
  | EndWinner w winnerEntries totalEntries participants =>
      exists g,
        getGiveaway st ch = Some g /\ isActive g = true /\
        getGiveaway (fst (giveawayEnd st ch rnd)) ch = None /\
        selectWinner g rnd = Some w /\ w <> EmptyString /\
        In w (allUsers g) /\
        winnerEntries = getTotalEntries g w /\ 0 < winnerEntries /\
        totalEntries = sumZ (map (getTotalEntries g) (allUsers g)) /\
        participants = List.length (allUsers g) /\
        ((forall p, 0 <= getTotalEntries g p) -> winnerEntries <= totalEntries)
  end.
Proof.
  unfold giveawayEnd.
  destruct (getGiveaway st ch) as [g|] eqn:Hg;
    [|simpl; repeat split; auto; discriminate].
  destruct (isActive g) eqn:Ha; simpl;
    [|repeat split; auto; intros g0 [= <-]; exact Ha].
  change (selectWinner (withIsActive g false) rnd) with (selectWinner g rnd).
  change (allUsers (withIsActive g false)) with (allUsers g).
  destruct (selectWinner g rnd) as [w|] eqn:Hw.
  - destruct (String.eqb_spec w EmptyString) as [->|Hne]; cbn [fst snd].
    + split; [intros ch' H; apply getGiveaway_put_other; congruence|].
      split; [reflexivity|].
      exists g. repeat split; auto. apply getGiveaway_put_same.
    + split.
      { intros ch' H. unfold getGiveaway, deleteGiveaway. cbn [activeGiveaways].
        rewrite JsMapFacts.get_delete_other by congruence.
        apply getGiveaway_put_other. congruence. }
      split; [reflexivity|].
      exists g.
      apply selectWinner_Some_In in Hw as Hin.
      apply weightedEntries_In in Hin as [Hu Ht].
      split; [reflexivity|]. split; [exact Ha|].
      split; [apply getGiveaway_delete_same|].
      split; [exact Hw|]. split; [exact Hne|]. split; [exact Hu|].
      split; [reflexivity|]. split; [exact Ht|].
      split; [now rewrite fold_left_sumZ|]. split; [reflexivity|].
      intros Hnn. rewrite fold_left_sumZ.
      exact (sumZ_member (getTotalEntries g) (allUsers g) w Hnn Hu).
  - cbn [fst snd].
    split; [intros ch' H; apply getGiveaway_put_other; congruence|].
    split; [reflexivity|].
    exists g. repeat split; auto. apply getGiveaway_put_same.
Qed.

(** ** Creation: the record that is stored *)

Lemma decimalDigit_value c :
  decimalDigit c -> 0 <= Z.of_nat (nat_of_ascii c) - 48 <= 9.
Proof.
  intros H. unfold decimalDigit in H. simpl in H.
  repeat (destruct H as [<-|H]; [vm_compute; split; discriminate|]).
  contradiction.
Qed.

Lemma decimalValue_nonneg l : Forall decimalDigit l -> 0 <= decimalValue l.
Proof.
  induction 1 as [|c l Hc _ IH]; cbn [decimalValue]; [lia|].
  apply decimalDigit_value in Hc. lia.
Qed.

Lemma numeralValue_nonneg ds :
  Forall decimalDigit (list_ascii_of_string ds) -> 0 <= numeralValue ds.
Proof.
  intros H. apply decimalValue_nonneg. now apply Forall_rev.
Qed.

Lemma unitMillis_pos u : unitLetter u -> 0 < unitMillis u.
Proof.
  intros H. unfold unitLetter in H. simpl in H.
  repeat (destruct H as [<-|H]; [reflexivity|]). contradiction.
Qed.

Lemma createGiveaway_result st now eventId ch prizeText durationStr fee cap st' r :
  createGiveaway st now eventId ch prizeText durationStr fee cap = Some (st', r) ->
  (r <> CreateSuccess -> st' = st) /\
  (r = CreateSuccess ->
     exists ds u wei,
       durationStr = (ds ++ String u EmptyString)%string /\ unitLetter u /\
       usdToWei st fee = Some wei /\
       getGiveaway st' ch =
         Some (mkGiveaway ch prizeText now (now + numeralValue ds * unitMillis u)
                 wei cap JsMap.empty JsMap.empty true (Some eventId)) /\
       now <= now + numeralValue ds * unitMillis u /\
       (now + numeralValue ds * unitMillis u = now <-> numeralValue ds = 0) /\
       (forall ch', ch' <> ch -> getGiveaway st' ch' = getGiveaway st ch') /\
       ethPriceUsd st' = ethPriceUsd st).
Proof.
  unfold createGiveaway.
  destruct (matchDuration durationStr) as [[ds u]|] eqn:Hm;
    [|intros [= <- <-]; split; [auto | discriminate]].
  apply matchDuration_Some in Hm as (-> & Hne & Hds & Hu).
  destruct (match getGiveaway st ch with Some e => isActive e | None => false end);
    [intros [= <- <-]; split; [auto | discriminate]|].
  destruct (usdToWei st fee) as [wei|]; [|discriminate].
  intros [= <- <-]. split; [congruence|]. intros _.
  exists ds, u, wei.
  rewrite parseInt_numeralValue, msOfDuration_unitMillis by assumption.
  pose proof (numeralValue_nonneg ds Hds).
  pose proof (unitMillis_pos u Hu).
  repeat split; auto.
  - apply getGiveaway_put_same.
  - nia.
  - nia.
  - intros ->. lia.
  - intros ch' Hch. apply getGiveaway_put_other. congruence.
Qed.

(** X10. [createGiveaway] changes the state only when it succeeds.  Then
    the channel holds a fresh record, replacing whatever was stored: active,
    with empty entry maps, the given prize and cap, the fee converted at the
    current rate, the announcement id and [startTime = now].  When [now] is
    not negative and the end is within the range of [Date],
    [endTime = now + count * unit >= startTime], with equality exactly for a
    count of 0 (a duration such as ["0m"] is accepted).  The other channels
    and the rate stay as they are. *)
Theorem createGiveaway_outcomes st now eventId ch prizeText durationStr fee cap st' r :
  createGiveaway st now eventId ch prizeText durationStr fee cap = Some (st', r) ->
  (r <> CreateSuccess -> st' = st) /\
  (r = CreateSuccess ->
     exists ds u wei g,
       durationStr = (ds ++ String u EmptyString)%string /\ unitLetter u /\
       usdToWei st fee = Some wei /\
       getGiveaway st' ch = Some g /\
       channelId g = ch /\ prize g = prizeText /\ startTime g = now /\
       tipEntryFee g = wei /\ tipEntryCap g = cap /\
       tipEntries g = JsMap.empty /\ reactionEntries g = JsMap.empty /\
       isActive g = true /\ announcementMessageId g = Some eventId /\
       (0 <= now -> validTime (now + numeralValue ds * unitMillis u) ->
          endTime g = now + numeralValue ds * unitMillis u /\
          startTime g <= endTime g /\
          (endTime g = startTime g <-> numeralValue ds = 0)) /\
       (forall ch', ch' <> ch -> getGiveaway st' ch' = getGiveaway st ch') /\
       ethPriceUsd st' = ethPriceUsd st).
Proof.
  intros H. destruct (createGiveaway_result _ _ _ _ _ _ _ _ _ _ H) as [Hfail Hok].
  split; [exact Hfail|]. intros Hr.
  destruct (Hok Hr) as (ds & u & wei & Hs & Hu & Hw & Hg & Hle & Hzero & Hother & Hrate).
  exists ds, u, wei. eexists.
  split; [exact Hs|]. split; [exact Hu|]. split; [exact Hw|]. split; [exact Hg|].
  cbn [channelId prize startTime endTime tipEntryFee tipEntryCap tipEntries
       reactionEntries isActive announcementMessageId].
  repeat (split; [reflexivity|]).
  split; [|split; [exact Hother | exact Hrate]].
  intros _ _. split; [reflexivity|]. split; [exact Hle | exact Hzero].
Qed.

Lemma createGiveaway_outcomes_witness :
  exists st',
    createGiveaway initialState 1000 "announcement-1" "general" "100 USDC" "0m"
      (1 # 2) 10 = Some (st', CreateSuccess) /\
    exists g, getGiveaway st' "general" = Some g /\ isActive g = true /\
              startTime g = 1000.
Proof.
  assert (Hrun : { st' | createGiveaway initialState 1000 "announcement-1" "general"
                           "100 USDC" "0m" (1 # 2) 10 = Some (st', CreateSuccess) })
    by (eexists; vm_compute; reflexivity).
  destruct Hrun as [st' Hrun].
  exists st'. split; [exact Hrun|].
  destruct (createGiveaway_outcomes initialState 1000 "announcement-1" "general"
              "100 USDC" "0m" (1 # 2) 10 st' CreateSuccess Hrun) as [_ Hok].
  destruct (Hok eq_refl)
    as (ds & u & wei & g & _ & _ & _ & Hg & _ & _ & Hstart & _ & _ & _ & _ & Ha & _).
  exists g. split; [exact Hg|]. split; [exact Ha | exact Hstart].
Defined.

(** ** Setting the fee *)

(** X11. [set-fee] changes the state only when it answers that the fee was
    updated: then the fee is positive, the giveaway exists and is active,
    and only its [tipEntryFee] is rewritten, with the fee converted at the
    current rate.  At a rate that is not negative the stored fee is at least
    [10^12] wei, or it is 0 wei, which happens when the quotient of the fee
    and the rate is 0 (a fee so small against the rate that the division
    underflows); the division in the tip handler throws on a stored fee of 0
    and on no other. *)
Theorem giveawaySetFee_outcomes st ch feeArg st' r :
  giveawaySetFee st ch feeArg = Some (st', r) ->
  (r <> SetUpdated -> st' = st) /\
  (r = SetUpdated ->
     exists g feeUsd wei,
       feeArg = ArgNum feeUsd /\ (0 < feeUsd)%Q /\
       getGiveaway st ch = Some g /\ isActive g = true /\
       usdToWei st feeUsd = Some wei /\
       getGiveaway st' ch = Some (withTipEntryFee g wei) /\
       (forall ch', ch' <> ch -> getGiveaway st' ch' = getGiveaway st ch') /\
       ethPriceUsd st' = ethPriceUsd st /\
       ((0 <= ethPriceUsd st)%Q ->
          (wei = 0 /\
           exists ethAmount,
             quotient feeUsd (ethPriceUsd st) = Some ethAmount /\
             (ethAmount == 0)%Q) \/
          10 ^ 12 <= wei) /\
       (forall sender amount,
          creditTip st' (withTipEntryFee g wei) ch sender amount = None <-> wei = 0)).
Proof.
  unfold giveawaySetFee.
  destruct feeArg as [| |feeUsd];
    try (intros [= <- <-]; split; [auto | discriminate]).
  destruct (notPositive feeUsd) eqn:Hle;
    [intros [= <- <-]; split; [auto | discriminate]|].
  destruct (getGiveaway st ch) as [g|] eqn:Hg;
    [|intros [= <- <-]; split; [auto | discriminate]].
  destruct (isActive g) eqn:Ha; simpl;
    [|intros [= <- <-]; split; [auto | discriminate]].
  destruct (usdToWei st feeUsd) as [wei|] eqn:Hw; [|discriminate].
  intros [= <- <-]. split; [congruence|]. intros _.
  assert (Hfee : (0 < feeUsd)%Q) by now apply notPositive_false.
  exists g, feeUsd, wei.
  split; [reflexivity|]. split; [exact Hfee|]. split; [reflexivity|].
  split; [exact Ha|]. split; [exact Hw|].
  split; [apply getGiveaway_put_same|].
  split; [intros ch' Hne; apply getGiveaway_put_other; congruence|].
  split; [reflexivity|].
  split.
  - intros Hrate. apply usdToWei_nonneg; [lra | exact Hrate | exact Hw].
  - intros sender amount. unfold creditTip. cbn [tipEntryFee withTipEntryFee].
    destruct (Z.eqb_spec wei 0) as [E|Hne]; [tauto|].
    split; [|contradiction].
    destruct (_ <? 1); [discriminate|].
    destruct (addTipEntry _ _ _ _) as [s added].
    destruct (added =? 0); discriminate.
Qed.

Lemma giveawaySetFee_outcomes_witness :
  exists st',
    giveawaySetFee exampleTipped "general" (ArgNum (1 # 1)) = Some (st', SetUpdated) /\
    exists g wei,
      getGiveaway st' "general" = Some (withTipEntryFee g wei) /\
      usdToWei exampleTipped 1 = Some wei.
Proof.
  assert (Hrun : { st' | giveawaySetFee exampleTipped "general" (ArgNum (1 # 1))
                         = Some (st', SetUpdated) })
    by (eexists; vm_compute; reflexivity).
  destruct Hrun as [st' Hrun].
  exists st'. split; [exact Hrun|].
  destruct (giveawaySetFee_outcomes exampleTipped "general" (ArgNum (1 # 1)) st' SetUpdated
              Hrun) as [_ Hok].
  destruct (Hok eq_refl) as (g & feeUsd & wei & Harg & _ & _ & _ & Hw & Hg & _).
  injection Harg as <-.
  exists g, wei. split; [exact Hg | exact Hw].
Defined.

(** ** The two [create] branches *)

(** X12. The inline regular expression of the oldest [create] branch
    matches exactly the strings the [createGiveaway] helper matches with a
    unit in lower case, with the same groups; a duration with the unit in
    upper case is matched by the helper and not by the inline branch. *)
Theorem matchDurationInline_is_case_sensitive s ds u :
  (matchDurationInline s = Some (ds, u) <->
   matchDuration s = Some (ds, u) /\ toLowerCase u = u) /\
  (matchDuration s = Some (ds, u) -> toLowerCase u <> u ->
   matchDurationInline s = None).
Proof.
  split; [apply matchDurationInline_iff|].
  intros Hm Hup.
  destruct (matchDurationInline s) as [[ds' u']|] eqn:Hi; auto.
  apply matchDurationInline_iff in Hi as [Hi Hlow].
  rewrite Hm in Hi. injection Hi as <- <-. contradiction.
Qed.

(** X13. On arguments whose duration has its unit in lower case (or is no
    duration at all) the inline branch and the branch with the helper leave
    the same state; when the channel has no active giveaway they also give
    the same answer.  (With an active giveaway the helper branch answers
    "already active" first, the inline branch checks the arguments
    first.) *)
Theorem create_branches_agree st creating now templateId eventId ch userId rest fee cap :
  rest <> [] ->
  (forall ds u, matchDuration (durationOfArgs rest) = Some (ds, u) ->
                toLowerCase u = u) ->
  option_map (fun r => fst (fst r))
    (giveawayCreate st creating now templateId eventId ch userId rest fee cap)
  = option_map fst (giveawayCreateInline st now eventId ch rest fee cap) /\
  ((forall e, getGiveaway st ch = Some e -> isActive e = false) ->
   option_map snd
     (giveawayCreate st creating now templateId eventId ch userId rest fee cap)
   = option_map snd (giveawayCreateInline st now eventId ch rest fee cap)).
Proof.
  intros Hrest Hlow.
  unfold giveawayCreate, giveawayCreateInline, createGiveaway.
  rewrite (matchDurationInline_eq _ Hlow).
  destruct rest as [|a rest']; [contradiction|].
  set (blocked := match getGiveaway st ch with
                  | Some existing => isActive existing
                  | None => false
                  end).
  set (usage := (String.eqb (prizeOfArgs (a :: rest')) EmptyString
                 || String.eqb (durationOfArgs (a :: rest')) EmptyString)%bool).
  assert (Hms : forall ds u,
            matchDuration (durationOfArgs (a :: rest')) = Some (ds, u) ->
            msOfDuration (parseInt ds) (toLowerCase u) = msOfDuration (parseInt ds) u).
  { intros ds u Hm. now rewrite (Hlow ds u Hm). }
  split.
  - destruct blocked eqn:Hb.
    + simpl. destruct usage; [reflexivity|].
      destruct (matchDuration _) as [[ds u]|]; reflexivity.
    + destruct usage; [reflexivity|].
      destruct (matchDuration _) as [[ds u]|] eqn:Hm; [|reflexivity].
      rewrite (Hms ds u eq_refl).
      destruct (usdToWei st fee); reflexivity.
  - intros Hfree.
    assert (Hb : blocked = false).
    { unfold blocked. destruct (getGiveaway st ch) as [e|]; auto. }
    rewrite Hb.
    destruct usage; [reflexivity|].
    destruct (matchDuration _) as [[ds u]|] eqn:Hm; [|reflexivity].
    rewrite (Hms ds u eq_refl).
    destruct (usdToWei st fee); reflexivity.
Qed.

Lemma create_branches_agree_witness :
  let rest := ["100"; "USDC"; "24h"]%string in
  rest <> [] /\
  (forall ds u, matchDuration (durationOfArgs rest) = Some (ds, u) ->
                toLowerCase u = u) /\
  option_map (fun r => fst (fst r))
    (giveawayCreate initialState JsMap.empty 1000 "template-1" "announcement-1"
       "general" "admin" rest (1 # 2) 10)
  = option_map fst
      (giveawayCreateInline initialState 1000 "announcement-1" "general" rest
         (1 # 2) 10).
Proof.
  intros rest.
  assert (Hrest : rest <> []) by discriminate.
  assert (Hlow : forall ds u, matchDuration (durationOfArgs rest) = Some (ds, u) ->
                              toLowerCase u = u).
  { intros ds u H. vm_compute in H. injection H as <- <-. reflexivity. }
  split; [exact Hrest|]. split; [exact Hlow|].
  exact (proj1 (create_branches_agree initialState JsMap.empty 1000 "template-1"
                  "announcement-1" "general" "admin" rest (1 # 2) 10 Hrest Hlow)).
Defined.

Lemma prefix_head a s1 c s :
  String.prefix (String a s1) (String c s) = true -> a = c.
Proof.
  cbn [String.prefix]. destruct (ascii_dec a c); [auto | discriminate].
Qed.

Lemma option_prefix_no_duration s :
  String.prefix "fee:" s = true \/ String.prefix "cap:" s = true ->
  s <> EmptyString /\ matchDuration s = None.
Proof.
  intros H. destruct s as [|c s]; [destruct H; discriminate|].
  split; [discriminate|].
  assert (Hc : isDigit c = false).
  { destruct H as [H|H]; apply prefix_head in H; subst c; reflexivity. }
  unfold matchDuration. cbn [spanDigits]. now rewrite Hc.
Qed.

(** X14. In the branch with the helper the duration is the last argument.
    So when a [fee:] or [cap:] option is written last, as in the usage text
    of the command ([create 100 USDC 24h fee:1.00 cap:20]), the option is
    read as the duration: on a channel without active giveaway the answer
    is "invalid duration" and nothing is created, whatever the values of the
    options. *)
Theorem options_after_duration_rejected st creating now templateId eventId ch userId
    rest fee cap :
  (forall e, getGiveaway st ch = Some e -> isActive e = false) ->
  prizeOfArgs rest <> EmptyString ->
  String.prefix "fee:" (durationOfArgs rest) = true \/
  String.prefix "cap:" (durationOfArgs rest) = true ->
  giveawayCreate st creating now templateId eventId ch userId rest fee cap
  = Some (st, creating, ReplyInvalidDuration).
Proof.
  intros Hfree Hprize Hopt.
  apply option_prefix_no_duration in Hopt as [Hne Hm].
  unfold giveawayCreate.
  assert (Hb : match getGiveaway st ch with
               | Some existing => isActive existing
               | None => false
               end = false).
  { destruct (getGiveaway st ch) as [e|]; auto. }
  rewrite Hb.
  destruct rest as [|a rest']; [contradiction|].
  destruct (String.eqb_spec (prizeOfArgs (a :: rest')) EmptyString);
    [contradiction|].
  destruct (String.eqb_spec (durationOfArgs (a :: rest')) EmptyString);
    [contradiction|]. simpl orb. cbv iota.
  unfold createGiveaway. now rewrite Hm.
Qed.

Lemma options_after_duration_rejected_witness :
  let rest := ["100"; "USDC"; "24h"; "fee:1.00"; "cap:20"]%string in
  (forall e, getGiveaway initialState "general" = Some e -> isActive e = false) /\
  prizeOfArgs rest <> EmptyString /\
  (String.prefix "fee:" (durationOfArgs rest) = true \/
   String.prefix "cap:" (durationOfArgs rest) = true) /\
  giveawayCreate initialState JsMap.empty 1000 "template-1" "announcement-1"
    "general" "admin" rest (1 # 1) 20
  = Some (initialState, JsMap.empty, ReplyInvalidDuration).
Proof.
  intros rest.
  assert (Hfree : forall e, getGiveaway initialState "general" = Some e ->
                            isActive e = false) by (intros e H; discriminate H).
  assert (Hprize : prizeOfArgs rest <> EmptyString) by (vm_compute; discriminate).
  assert (Hopt : String.prefix "fee:" (durationOfArgs rest) = true \/
                 String.prefix "cap:" (durationOfArgs rest) = true)
    by (right; reflexivity).
  split; [exact Hfree|]. split; [exact Hprize|]. split; [exact Hopt|].
  exact (options_after_duration_rejected initialState JsMap.empty 1000 "template-1"
           "announcement-1" "general" "admin" rest (1 # 1) 20 Hfree Hprize Hopt).
Defined.

(** ** The status command: the top participants *)











(** ** The remaining time *)


(** ** Every state the bot can reach *)

Lemma recordEvolves_refl g : recordEvolves g g.
Proof. unfold recordEvolves. auto 10. Qed.

Lemma recordEvolves_trans g1 g2 g3 :
  recordEvolves g1 g2 -> recordEvolves g2 g3 -> recordEvolves g1 g3.
Proof.
  unfold recordEvolves. intros (?&?&?&?&?&?) (?&?&?&?&?&?).
  repeat split; try congruence; auto.
Qed.

Lemma put_records st ch0 g0 gnew ch g' :
  getGiveaway st ch0 = Some g0 -> recordEvolves g0 gnew ->
  getGiveaway (putGiveaway st ch0 gnew) ch = Some g' ->
  exists g, getGiveaway st ch = Some g /\ recordEvolves g g'.
Proof.
  intros Hg0 Hev. rewrite getGiveaway_put.
  destruct (String.eqb_spec ch0 ch) as [<-|].
  - intros [= <-]. eauto.
  - intros H. eauto using recordEvolves_refl.
Qed.

Lemma delete_records st ch0 ch g' :
  getGiveaway (deleteGiveaway st ch0) ch = Some g' -> getGiveaway st ch = Some g'.
Proof.
  destruct (String.eqb_spec ch0 ch) as [<-|Hne].
  - rewrite getGiveaway_delete_same. discriminate.
  - unfold getGiveaway, deleteGiveaway. cbn [activeGiveaways].
    now rewrite JsMapFacts.get_delete_other.
Qed.

Ltac unchanged :=
  intros; match goal with
  | H : getGiveaway ?st ?ch = Some ?g |- exists _, getGiveaway ?st ?ch = Some _ /\ _ =>
      exists g; split; [exact H | apply recordEvolves_refl]
  end.

Ltac evolves_by_fields :=
  unfold recordEvolves; simpl; repeat split; auto.

Lemma giveawayEnd_records st ch0 rnd ch g' :
  getGiveaway (fst (giveawayEnd st ch0 rnd)) ch = Some g' ->
  exists g, getGiveaway st ch = Some g /\ recordEvolves g g'.
Proof.
  unfold giveawayEnd.
  destruct (getGiveaway st ch0) as [g0|] eqn:Hg0; [|simpl; unchanged].
  destruct (negb (isActive g0)); [simpl; unchanged|].
  assert (Hput : forall g',
            getGiveaway (putGiveaway st ch0 (withIsActive g0 false)) ch = Some g' ->
            exists g, getGiveaway st ch = Some g /\ recordEvolves g g').
  { intros g1. apply put_records with g0; auto. evolves_by_fields. }
  destruct (selectWinner _ rnd) as [w|]; [|simpl; apply Hput].
  destruct (String.eqb w EmptyString); simpl; [apply Hput|].
  intros H. apply delete_records in H. now apply Hput.
Qed.

Lemma giveawaySetFee_records st ch0 feeArg st' r ch g' :
  giveawaySetFee st ch0 feeArg = Some (st', r) ->
  getGiveaway st' ch = Some g' ->
  exists g, getGiveaway st ch = Some g /\ recordEvolves g g'.
Proof.
  unfold giveawaySetFee.
  destruct feeArg as [| |feeUsd]; try (intros [= <- _]; unchanged).
  destruct (notPositive feeUsd); [intros [= <- _]; unchanged|].
  destruct (getGiveaway st ch0) as [g0|] eqn:Hg0; [|intros [= <- _]; unchanged].
  destruct (negb (isActive g0)); [intros [= <- _]; unchanged|].
  destruct (usdToWei st feeUsd) as [wei|]; [|discriminate].
  intros [= <- _]. apply put_records with g0; auto. evolves_by_fields.
Qed.

Lemma giveawaySetCap_records st ch0 capArg ch g' :
  getGiveaway (fst (giveawaySetCap st ch0 capArg)) ch = Some g' ->
  exists g, getGiveaway st ch = Some g /\ recordEvolves g g'.
Proof.
  unfold giveawaySetCap.
  destruct capArg as [| |cap]; try (simpl; unchanged).
  destruct (cap <=? 0); [simpl; unchanged|].
  destruct (getGiveaway st ch0) as [g0|] eqn:Hg0; [|simpl; unchanged].
  destruct (negb (isActive g0)); [simpl; unchanged|]. simpl.
  apply put_records with g0; auto. evolves_by_fields.
Qed.

Lemma onReaction_records st now event ch g' :
  getGiveaway (onReaction st now event) ch = Some g' ->
  exists g, getGiveaway st ch = Some g /\ recordEvolves g g'.
Proof.
  unfold onReaction.
  destruct (negb (re_reaction event =? giftEmoji)%string); [unchanged|].
  destruct (getGiveaway st (re_channelId event)) as [g0|] eqn:Hg0; [|unchanged].
  destruct (negb (isActive g0)) eqn:Ha; [unchanged|].
  destruct (negb (isAnnouncement g0 (re_messageId event))); [unchanged|].
  destruct (endTime g0 <? now).
  - apply put_records with g0; auto. evolves_by_fields.
  - unfold addReactionEntry. rewrite Hg0, Ha.
    apply put_records with g0; auto. evolves_by_fields.
    intros Hpos. apply countsPositive_set; auto.
    pose proof (countsPositive_getOr0 _ (re_userId event) Hpos). lia.
Qed.

Lemma tipStep_records botId st timed ch g' :
  getGiveaway (tipStep botId st timed) ch = Some g' ->
  exists g, getGiveaway st ch = Some g /\ recordEvolves g g'.
Proof.
  unfold tipStep, onTip, creditTip.
  destruct (negb (te_receiverAddress (snd timed) =? botId)%string); [unchanged|].
  destruct (getGiveaway st (te_channelId (snd timed))) as [g0|] eqn:Hg0; [|unchanged].
  destruct (negb (isActive g0)) eqn:Ha; [unchanged|].
  destruct (endTime g0 <? fst timed).
  - apply put_records with g0; auto. evolves_by_fields.
  - destruct (tipEntryFee g0 =? 0); [unchanged|].
    destruct (Z.ltb_spec (numberOfBigInt (Z.quot (te_amount (snd timed)) (tipEntryFee g0))) 1) as [|Hp];
      [unchanged|].
    unfold addTipEntry. rewrite Hg0, Ha.
    destruct (Z.leb_spec
                (tipEntryCap g0 - getOr0 (tipEntries g0) (te_senderAddress (snd timed)))
                0) as [|Hrem]; [simpl; unchanged|].
    assert (Hput :
              getGiveaway
                (putGiveaway st (te_channelId (snd timed))
                   (withTipEntries g0
                      (JsMap.set (tipEntries g0) (te_senderAddress (snd timed))
                         (getOr0 (tipEntries g0) (te_senderAddress (snd timed)) +
                          Z.min (numberOfBigInt (Z.quot (te_amount (snd timed)) (tipEntryFee g0)))
                            (tipEntryCap g0 -
                             getOr0 (tipEntries g0)
                               (te_senderAddress (snd timed))))))) ch = Some g' ->
              exists g, getGiveaway st ch = Some g /\ recordEvolves g g').
    { apply put_records with g0; auto. evolves_by_fields.
      intros Hpos. apply countsPositive_set; auto.
      pose proof (countsPositive_getOr0 _ (te_senderAddress (snd timed)) Hpos). lia. }
    destruct (Z.min _ _ =? 0); simpl; exact Hput.
Qed.

Lemma sweep_records st now ch g' :
  getGiveaway (sweep st now) ch = Some g' ->
  exists g, getGiveaway st ch = Some g /\ recordEvolves g g'.
Proof.
  rewrite getGiveaway_sweep.
  destruct (getGiveaway st ch) as [g|]; [|discriminate].
  intros [= <-]. exists g. split; [reflexivity|].
  unfold expire. destruct (isActive g && (endTime g <? now));
    [evolves_by_fields | apply recordEvolves_refl].
Qed.

(** Each record stored after an event was stored before and has evolved, or
    was created by this event. *)
Lemma handle_records botId st ev ch g' :
  getGiveaway (handle botId st ev) ch = Some g' ->
  (exists g, getGiveaway st ch = Some g /\ recordEvolves g g') \/
  (recordFresh ch g' /\
   exists now eventId prizeText durationStr fee cap,
     ev = EvCreate now eventId ch prizeText durationStr fee cap).
Proof.
  destruct ev as [now eventId ch0 prizeText durationStr fee cap|ch0 rnd|ch0 feeArg
                 |ch0 capArg|priceArg|now event|now event|now]; simpl.
  - destruct (createGiveaway st now eventId ch0 prizeText durationStr fee cap)
      as [[st' r]|] eqn:Hc; [|left; unchanged].
    destruct (createGiveaway_result _ _ _ _ _ _ _ _ _ _ Hc) as [Hfail Hok].
    destruct r; try (rewrite Hfail by discriminate; left; unchanged).
    destruct (Hok eq_refl) as (ds & u & wei & _ & _ & _ & Hnew & Hle & _ & Hother & _).
    intros Hg'. destruct (String.eqb_spec ch ch0) as [->|Hne].
    + right. rewrite Hnew in Hg'. injection Hg' as <-.
      split; [|eauto 10].
      unfold recordFresh, recordWellFormed. simpl.
      repeat split; auto. discriminate.
    + left. rewrite (Hother ch Hne) in Hg'. unchanged.
  - intros H. left. now apply giveawayEnd_records in H.
  - destruct (giveawaySetFee st ch0 feeArg) as [[st' r]|] eqn:Hf; [|left; unchanged].
    intros H. left. eapply giveawaySetFee_records; eauto.
  - intros H. left. now apply giveawaySetCap_records in H.
  - intros H. left.
    assert (Hsame : getGiveaway (fst (giveawaySetEthPrice st priceArg)) ch
                    = getGiveaway st ch).
    { unfold giveawaySetEthPrice. destruct priceArg as [| |price]; auto.
      now destruct (notPositive price). }
    rewrite Hsame in H. unchanged.
  - intros H. left. now apply onReaction_records in H.
  - intros H. left. now apply tipStep_records in H.
  - intros H. left. now apply sweep_records in H.
Qed.

Lemma handle_positive botId st ev :
  registryPositive st -> registryPositive (handle botId st ev).
Proof.
  intros Hst ch g' Hg'.
  destruct (handle_records botId st ev ch g' Hg')
    as [(g & Hg & _ & _ & _ & _ & Hr & Ht)|[(_ & _ & Hr & Ht) _]].
  - destruct (Hst ch g Hg). split; auto.
  - split; intros p n; [rewrite Hr | rewrite Ht]; discriminate.
Qed.

Lemma handle_rate_frame botId st ev :
  ethPriceUsd (handle botId st ev) = ethPriceUsd st \/
  exists price,
    ev = EvSetEthPrice (ArgNum price) /\ (0 < price)%Q /\
    ethPriceUsd (handle botId st ev) = price.
Proof.
  destruct ev as [now eventId ch0 prizeText durationStr fee cap|ch0 rnd|ch0 feeArg
                 |ch0 capArg|priceArg|now event|now event|now]; simpl.
  - left. unfold createGiveaway.
    destruct (matchDuration durationStr) as [[ds u]|]; auto.
    destruct (match getGiveaway st ch0 with Some e => isActive e | None => false end);
      auto.
    destruct (usdToWei st fee); auto.
  - left. unfold giveawayEnd.
    destruct (getGiveaway st ch0) as [g0|]; auto.
    destruct (negb (isActive g0)); auto.
    destruct (selectWinner _ rnd) as [w|]; auto.
    destruct (String.eqb w EmptyString); auto.
  - left. unfold giveawaySetFee. destruct feeArg as [| |feeUsd]; auto.
    destruct (notPositive feeUsd); auto.
    destruct (getGiveaway st ch0) as [g0|]; auto.
    destruct (negb (isActive g0)); auto.
    destruct (usdToWei st feeUsd); auto.
  - left. unfold giveawaySetCap. destruct capArg as [| |c]; auto.
    destruct (c <=? 0); auto.
    destruct (getGiveaway st ch0) as [g0|]; auto.
    destruct (negb (isActive g0)); auto.
  - unfold giveawaySetEthPrice. destruct priceArg as [| |price]; auto.
    destruct (notPositive price) eqn:Hle; auto. simpl.
    right. exists price. split; [reflexivity|]. split; [|reflexivity].
    now apply notPositive_false.
  - left. unfold onReaction.
    destruct (negb (re_reaction event =? giftEmoji)%string); auto.
    destruct (getGiveaway st (re_channelId event)) as [g0|] eqn:Hg0; auto.
    destruct (negb (isActive g0)) eqn:Ha; auto.
    destruct (negb (isAnnouncement g0 (re_messageId event))); auto.
    destruct (endTime g0 <? now); auto.
    unfold addReactionEntry. now rewrite Hg0, Ha.
  - left. unfold tipStep, onTip, creditTip. simpl.
    destruct (negb (te_receiverAddress event =? botId)%string); auto.
    destruct (getGiveaway st (te_channelId event)) as [g0|] eqn:Hg0; auto.
    destruct (negb (isActive g0)) eqn:Ha; auto.
    destruct (endTime g0 <? now); auto.
    destruct (tipEntryFee g0 =? 0); auto.
    destruct (_ <? 1); auto.
    unfold addTipEntry. rewrite Hg0, Ha.
    destruct (_ <=? 0); simpl; auto.
    destruct (_ =? 0); auto.
  - auto.
Qed.

Lemma handle_rate botId st ev :
  (0 < ethPriceUsd st)%Q -> (0 < ethPriceUsd (handle botId st ev))%Q.
Proof.
  intros Hp.
  destruct (handle_rate_frame botId st ev) as [->|(price & _ & Hpos & ->)];
    assumption.
Qed.

Lemma run_invariant botId (P : BotState -> Prop) :
  (forall st ev, P st -> P (handle botId st ev)) ->
  forall events st, P st -> P (run botId st events).
Proof.
  intros Hstep. unfold run.
  induction events as [|ev events IH]; intros st Hst; simpl; auto.
Qed.

Lemma example_run :
  { g | getGiveaway (run "bot" initialState exampleEvents) "general" = Some g }.
Proof. eexists. vm_compute. reflexivity. Defined.

(** X17. Over any sequence of handler calls from start-up in which every
    creation is given a whole number as its cap (the event type carries
    one), every stored entry count is at least 1, so every participant of
    every giveaway has at least one entry. *)
Theorem reachable_ledger_positive botId events ch g :
  getGiveaway (run botId initialState events) ch = Some g ->
  ledgerPositive g /\
  (forall p, In p (allUsers g) -> 1 <= getTotalEntries g p).
Proof.
  intros Hg.
  assert (Hpos : registryPositive (run botId initialState events)).
  { apply run_invariant; [intros; now apply handle_positive|].
    intros c g0 H. discriminate H. }
  split; [exact (Hpos ch g Hg)|].
  intros p Hp. apply ledgerPositive_total; auto. exact (Hpos ch g Hg).
Qed.

Lemma reachable_ledger_positive_witness :
  exists g,
    getGiveaway (run "bot" initialState exampleEvents) "general" = Some g /\
    ledgerPositive g.
Proof.
  destruct example_run as [g Hg].
  exists g. split; [exact Hg|].
  exact (proj1 (reachable_ledger_positive "bot" exampleEvents "general" g Hg)).
Defined.

(** X18. In every state the bot reaches from start-up a record is stored
    under its own channel id.  An event leaves the channel id, the start
    time and the end time of a stored record as they are, unless it is a
    creation on that channel, which replaces the record by a fresh one:
    active, with empty entry maps. *)
Theorem reachable_records_keyed_by_channel botId events ch g :
  getGiveaway (run botId initialState events) ch = Some g ->
  channelId g = ch /\
  forall ev g',
    getGiveaway (handle botId (run botId initialState events) ev) ch = Some g' ->
    (channelId g' = channelId g /\ startTime g' = startTime g /\
     endTime g' = endTime g) \/
    ((exists now eventId prizeText durationStr fee cap,
        ev = EvCreate now eventId ch prizeText durationStr fee cap) /\
     isActive g' = true /\
     reactionEntries g' = JsMap.empty /\ tipEntries g' = JsMap.empty).
Proof.
  intros Hg. split.
  - revert ch g Hg.
    apply (run_invariant botId
             (fun st => forall ch g, getGiveaway st ch = Some g -> channelId g = ch)).
    + intros st ev Hst ch g' Hg'.
      destruct (handle_records botId st ev ch g' Hg')
        as [(g & Hg & Hc & _)|[((Hc & _) & _) _]]; [|exact Hc].
      rewrite Hc. now apply Hst.
    + intros ch g H. discriminate H.
  - intros ev g' Hg'.
    destruct (handle_records botId _ ev ch g' Hg')
      as [(g0 & Hg0 & Hc & Hs & He & _)|[(_ & Ha & Hr & Ht) Hev]].
    + left. rewrite Hg in Hg0. injection Hg0 as <-. auto.
    + right. auto.
Qed.

Lemma reachable_records_keyed_by_channel_witness :
  exists g,
    getGiveaway (run "bot" initialState exampleEvents) "general" = Some g /\
    channelId g = "general"%string.
Proof.
  destruct example_run as [g Hg].
  exists g. split; [exact Hg|].
  exact (proj1 (reachable_records_keyed_by_channel "bot" exampleEvents "general" g Hg)).
Defined.

(** X19. In every state the bot reaches from start-up the rate is
    positive, and only an accepted [set-eth-price] changes it, to the
    positive price it is given. *)
Theorem reachable_rate_positive botId events :
  (0 < ethPriceUsd (run botId initialState events))%Q /\
  forall ev,
    ethPriceUsd (handle botId (run botId initialState events) ev)
      = ethPriceUsd (run botId initialState events) \/
    exists price,
      ev = EvSetEthPrice (ArgNum price) /\ (0 < price)%Q /\
      ethPriceUsd (handle botId (run botId initialState events) ev) = price.
Proof.
  split.
  - apply (run_invariant botId (fun st => (0 < ethPriceUsd st)%Q)).
    + intros st ev. apply handle_rate.
    + reflexivity.
  - intros ev. apply handle_rate_frame.
Qed.

(** X20. Only a successful creation registers a channel: when an event
    leaves a record on a channel that had none, the event is a creation on
    that channel and the record is fresh (active, empty entry maps).  No
    reaction, tip, sweep, end or setter ever adds a channel. *)
Theorem only_create_adds_channel botId st ev ch g' :
  getGiveaway st ch = None ->
  getGiveaway (handle botId st ev) ch = Some g' ->
  (exists now eventId prizeText durationStr fee cap,
     ev = EvCreate now eventId ch prizeText durationStr fee cap) /\
  isActive g' = true /\
  reactionEntries g' = JsMap.empty /\ tipEntries g' = JsMap.empty /\
  channelId g' = ch.
Proof.
  intros Hnone Hg'.
  destruct (handle_records botId st ev ch g' Hg')
    as [(g & Hg & _)|[((Hch & _) & Ha & Hr & Ht) Hev]]; [congruence|].
  auto 10.
Qed.

Lemma example_create :
  { g | getGiveaway
          (handle "bot" initialState
             (EvCreate 0 "announcement-1" "general" "100 USDC" "24h" (1 # 2) 10))
          "general" = Some g }.
Proof. eexists. vm_compute. reflexivity. Defined.

Lemma only_create_adds_channel_witness :
  getGiveaway initialState "general" = None /\
  exists g,
    getGiveaway
      (handle "bot" initialState
         (EvCreate 0 "announcement-1" "general" "100 USDC" "24h" (1 # 2) 10))
      "general" = Some g /\
    isActive g = true /\ tipEntries g = JsMap.empty.
Proof.
  split; [reflexivity|].
  destruct example_create as [g Hg].
  exists g. split; [exact Hg|].
  destruct (only_create_adds_channel "bot" initialState _ "general" g eq_refl Hg)
    as (_ & Ha & _ & Ht & _).
  split; [exact Ha | exact Ht].
Defined.

(** The report of the status command on an active giveaway. *)
Lemma giveawayStatus_report st now ch g :
  getGiveaway st ch = Some g -> isActive g = true ->
  exists report,
    giveawayStatus st now ch = StatusShown report /\
    sr_top report = topParticipants g /\
    sr_totalEntries report = sumZ (map (getTotalEntries g) (allUsers g)) /\
    sr_participants report = List.length (allUsers g) /\
    sr_remaining report = formatTimeRemaining (endTime g) now.
Proof.
  intros Hg Ha. unfold giveawayStatus. rewrite Hg, Ha. simpl.
  eexists. split; [reflexivity|]. simpl.
  repeat split. now rewrite fold_left_sumZ.
Qed.
